(** * scripts/generate_katex_spec_todos.py

    A shallow embedding of the stub generator and the properties its
    specification states about it.

    Python values are modelled as follows.
    - [str] is a sequence of Unicode code points: [list N].
    - [int] values that occur here (line numbers, occurrence counts) are
      non-negative and unbounded: [nat].
    - the set literal [PORTED] is a [gset], the [Counter] a [gmap] whose
      missing keys read as 0.
    - the part of [re] the script uses (literals, character classes, a
      greedy [+], one capturing group) is a small backtracking matcher
      over a pattern given as data.
    - [str.lower] and [str.isalpha] are the ASCII maps on ASCII text and
      an arbitrary [Unicode] instance elsewhere.
    - [main] runs in a state-and-exception monad over a [World] holding
      what reading the specification file gives, the encoding of standard
      output and the bytes written to it; [print] encodes its text and
      raises where the encoding has no bytes for a character. *)

From Stdlib Require Import Ascii String Decimal DecimalNat.
From stdpp Require Import gmap list sorting.

Local Open Scope nat_scope.

(** ** Strings *)

Abbreviation char := N (only parsing).
Abbreviation str := (list N) (only parsing).

(** A literal of the script, written with the characters of an ASCII
    string. *)
Fixpoint py (s : string) : str :=
  match s with
  | EmptyString => []
  | String a r => N_of_ascii a :: py r
  end.

Definition dquote : char := 34%N.
Definition squote : char := 39%N.
Definition backslash : char := 92%N.
Definition underscore : char := 95%N.
Definition newline : char := 10%N.

(** [c] lies in the inclusive code point range [lo-hi]. *)
Definition in_range (lo hi c : char) : bool := ((lo <=? c) && (c <=? hi))%N.

Definition is_ascii_upper (c : char) : bool := in_range 65 90 c.
Definition is_ascii_lower (c : char) : bool := in_range 97 122 c.
Definition is_ascii_digit (c : char) : bool := in_range 48 57 c.
Definition is_ascii (c : char) : bool := (c <? 128)%N.

Fixpoint take_while {A} (f : A -> bool) (l : list A) : list A :=
  match l with
  | x :: r => if f x then x :: take_while f r else []
  | [] => []
  end.

Fixpoint drop_while {A} (f : A -> bool) (l : list A) : list A :=
  match l with
  | x :: r => if f x then drop_while f r else l
  | [] => []
  end.

(** ** The fragment of [re] used by the script *)

Module Re.

(** One position of a pattern: a literal character, a class [[...]] or a
    negated class [[^...]], each class a list of inclusive ranges. *)
Inductive atom :=
| Lit (c : char)
| InSet (ranges : list (char * char))
| NotInSet (ranges : list (char * char)).

Inductive node :=
| One (a : atom)
| Many1 (a : atom)   (* a+ : greedy, at least one *)
| GroupOpen          (* ( *)
| GroupClose.        (* ) *)

Definition pattern := list node.

Definition in_ranges (ranges : list (char * char)) (c : char) : bool :=
  existsb (fun r => in_range r.1 r.2 c) ranges.

Definition atom_ok (a : atom) (c : char) : bool :=
  match a with
  | Lit d => bool_decide (c = d)
  | InSet rs => in_ranges rs c
  | NotInSet rs => negb (in_ranges rs c)
  end.

(** A successful match: where it ends and the span of group 1, both as
    offsets from the start of the subject. *)
Record Match := { m_end : nat; m_group1 : option (nat * nat) }.

(** The first [k], counting down from [n] to 1, at which [f] succeeds: the
    order in which a greedy quantifier gives characters back. *)
Fixpoint first_success {A} (f : nat -> option A) (n : nat) : option A :=
  match n with
  | 0 => None
  | S n' => match f n with Some r => Some r | None => first_success f n' end
  end.

(** Match pattern [p] against [s], the subject from offset [pos] on.
    [opened] is where the group was opened, [grp] its span once closed. *)
Fixpoint match_at (p : pattern) (s : str) (pos : nat)
    (opened : option nat) (grp : option (nat * nat)) : option Match :=
  match p with
  | [] => Some {| m_end := pos; m_group1 := grp |}
  | One a :: p' =>
      match s with
      | c :: s' => if atom_ok a c then match_at p' s' (S pos) opened grp else None
      | [] => None
      end
  | Many1 a :: p' =>
      first_success
        (fun k => match_at p' (drop k s) (pos + k) opened grp)
        (length (take_while (atom_ok a) s))
  | GroupOpen :: p' => match_at p' s pos (Some pos) grp
  | GroupClose :: p' =>
      match_at p' s pos opened
        (match opened with Some b => Some (b, pos) | None => grp end)
  end.

(** [re.match(p, s)]: anchored at the start of [s]. *)
Definition re_match (p : pattern) (s : str) : option Match :=
  match_at p s 0 None None.

(** [m.group(1)] for a match [m] on subject [s]. *)
Definition group1 (s : str) (m : Match) : str :=
  match m_group1 m with
  | Some (b, e) => take (e - b) (drop b s)
  | None => []
  end.

(** The scan of [re.sub(p, repl, s)], left to right: [skip] characters of
    the current match remain to be dropped. At each position outside a
    match the pattern is tried; a match of [S k] characters is replaced by
    [repl]. Both patterns the script substitutes consume at least one
    character, so replacement at an empty match does not arise. *)
Fixpoint sub_scan (p : pattern) (repl : str) (skip : nat) (s : str) : str :=
  match s with
  | [] => []
  | c :: s' =>
      match skip with
      | S k => sub_scan p repl k s'
      | 0 =>
          match m_end <$> re_match p s with
          | Some (S k) => repl ++ sub_scan p repl k s'
          | _ => c :: sub_scan p repl 0 s'
          end
      end
  end.

Definition re_sub (p : pattern) (repl : str) (s : str) : str :=
  sub_scan p repl 0 s.

(** The pattern matching the characters of [l] one after the other. *)
Definition lits (l : str) : pattern := map (fun c => One (Lit c)) l.

End Re.

Import Re.

(** The pattern of line 89: the literal text describe( and a double quote,
    then group 1: one or more characters other than a double quote. *)
Definition describe_re : pattern :=
  lits (py "describe(") ++
  [One (Lit dquote); GroupOpen; Many1 (NotInSet [(dquote, dquote)]); GroupClose].

(** The first pattern of [snakeify]: one backslash, double quote or single
    quote. *)
Definition quote_re : pattern :=
  [One (InSet [(backslash, backslash); (dquote, dquote); (squote, squote)])].

(** The second pattern of [snakeify]: one or more characters outside
    a-z, A-Z and 0-9. *)
Definition nonalnum_re : pattern :=
  [Many1 (NotInSet [(97, 122); (65, 90); (48, 57)]%N)].

(** ** String methods *)

(** [s.strip(chars)]: characters of [chars] removed from both ends. *)
Definition lstrip (chars s : str) : str :=
  drop_while (fun c => bool_decide (c ∈ chars)) s.
Definition rstrip (chars s : str) : str :=
  reverse (lstrip chars (reverse s)).
Definition strip (chars s : str) : str :=
  rstrip chars (lstrip chars s).

(** [str.lower] and [str.isalpha] follow the Unicode tables. On ASCII text
    they are the maps below; what they do beyond ASCII is left open. *)
Class Unicode := {
  unicode_lower : str -> str;
  unicode_isalpha : char -> bool
}.

Definition ascii_lower (c : char) : char :=
  if is_ascii_upper c then (c + 32)%N else c.

Definition lower `{Unicode} (s : str) : str :=
  if forallb is_ascii s then map ascii_lower s else unicode_lower s.

Definition isalpha `{Unicode} (c : char) : bool :=
  if is_ascii c then is_ascii_upper c || is_ascii_lower c
  else unicode_isalpha c.

(** [sep.join(l)] *)
Fixpoint join (sep : str) (l : list str) : str :=
  match l with
  | [] => []
  | [x] => x
  | x :: r => x ++ sep ++ join sep r
  end.

(** [str(n)] for a non-negative [int]: its decimal digits. *)
Fixpoint uint_digits (d : Decimal.uint) : str :=
  match d with
  | Nil => []
  | D0 r => 48%N :: uint_digits r
  | D1 r => 49%N :: uint_digits r
  | D2 r => 50%N :: uint_digits r
  | D3 r => 51%N :: uint_digits r
  | D4 r => 52%N :: uint_digits r
  | D5 r => 53%N :: uint_digits r
  | D6 r => 54%N :: uint_digits r
  | D7 r => 55%N :: uint_digits r
  | D8 r => 56%N :: uint_digits r
  | D9 r => 57%N :: uint_digits r
  end.

Definition str_of_int (n : nat) : str := uint_digits (Nat.to_uint n).

(** The line boundaries of [str.splitlines]: LF, VT, FF, CR, FS, GS, RS,
    NEL, LINE SEPARATOR and PARAGRAPH SEPARATOR. *)
Definition is_linebreak (c : char) : bool :=
  bool_decide (c ∈ [10; 11; 12; 13; 28; 29; 30; 133; 8232; 8233]%N).

(** [s.splitlines()], with [cur] the line being read. CR LF is one
    boundary, and a boundary at the very end opens no further line. *)
Fixpoint splitlines_from (cur s : str) : list str :=
  match s with
  | [] => match cur with [] => [] | _ => [cur] end
  | c :: s' =>
      if is_linebreak c then
        match c, s' with
        | 13%N, 10%N :: s'' => cur :: splitlines_from [] s''
        | _, _ => cur :: splitlines_from [] s'
        end
      else splitlines_from (cur ++ [c]) s'
  end.

Definition splitlines (s : str) : list str := splitlines_from [] s.

(** [enumerate(l, start)] *)
Fixpoint enumerate {A} (l : list A) (start : nat) : list (nat * A) :=
  match l with
  | [] => []
  | x :: r => (start, x) :: enumerate r (S start)
  end.

(** [seen[k]] on a [Counter]: a missing key counts 0. *)
Definition count_of (seen : gmap (list N) nat) (k : str) : nat :=
  default 0 (seen !! k).

(** ** The process: file system, standard output, exceptions *)

(** What [read_text] can raise: the file cannot be opened or read, or its
    bytes are not UTF-8; and what [print] can raise: standard output
    cannot encode the text. *)
Inductive exn := OSError | UnicodeDecodeError | UnicodeEncodeError.

(** The encoding of [sys.stdout], whose error handler is strict: the bytes
    of each ASCII character, and the bytes of any other code point, or
    [None] where the encoding has none for it. This is a codec without
    state, as UTF-8, ASCII, Latin-1 and the Windows code pages are. *)
Record Encoding := {
  encode_ascii : N -> list N;
  encode_other : N -> option (list N)
}.

Definition encode_char (enc : Encoding) (c : char) : option (list N) :=
  if is_ascii c then Some (encode_ascii enc c) else encode_other enc c.

(** [s.encode(enc)], with [None] for UnicodeEncodeError. *)
Fixpoint encode (enc : Encoding) (s : str) : option (list N) :=
  match s with
  | [] => Some []
  | c :: r =>
      match encode_char enc c, encode enc r with
      | Some b, Some bs => Some (b ++ bs)
      | _, _ => None
      end
  end.

(** [spec_file] is what reading KaTeX/test/katex-spec.js gives: its text,
    or the exception raised. [stdout] holds the bytes written so far. *)
Record World := {
  spec_file : exn + list N;
  stdout_encoding : Encoding;
  stdout : list N
}.

Definition IO (A : Type) : Type := World -> (exn + A) * World.

#[global] Instance IO_ret : MRet IO := fun A a w => (inr a, w).
#[global] Instance IO_bind : MBind IO := fun A B f m w =>
  match m w with
  | (inr a, w') => f a w'
  | (inl e, w') => (inl e, w')
  end.

(** [SPEC.read_text(encoding=...)] *)
Definition read_text : IO (list N) := fun w =>
  match spec_file w with
  | inr text => (inr text, w)
  | inl e => (inl e, w)
  end.

(** [sys.stdout.write(s)]: the text is encoded as a whole, so that nothing
    is written when a character cannot be encoded. *)
Definition write (s : str) : IO unit := fun w =>
  match encode (stdout_encoding w) s with
  | Some bytes =>
      (inr tt, {| spec_file := spec_file w;
                  stdout_encoding := stdout_encoding w;
                  stdout := stdout w ++ bytes |})
  | None => (inl UnicodeEncodeError, w)
  end.

(** [print(s)]: [s] is written, then the newline. *)
Definition print (s : str) : IO unit :=
  write s ;; write [newline].

(** The exit status of the interpreter: 1 after an uncaught exception. *)
Definition exit_status {A} (r : exn + A) : nat :=
  match r with inl _ => 1 | inr _ => 0 end.

(** ** The generator *)

Section Generator.
Context `{Unicode}.

(** Lines 72-82. [clean] is not empty when its first character is read,
    so that indexing never fails and the last case below is never taken. *)
Definition snakeify (name : str) : str :=
  let clean := re_sub quote_re (py " ") name in
  let clean := lower (strip (py "_") (re_sub nonalnum_re (py "_") clean)) in
  let clean := match clean with [] => py "unknown" | _ => clean end in
  match clean with
  | c :: _ => if isalpha c then clean else py "katex_" ++ clean
  | [] => clean
  end.

(** The set of titles already ported, read by [main]. *)
Variable ported : gset (list N).

(** Body of the loop of lines 88-94. *)
Definition scan_line (describes : list (list N * nat)) (item : nat * list N)
    : list (list N * nat) :=
  let '(lineno, line) := item in
  match re_match describe_re line with
  | Some m =>
      let title := group1 line m in
      if bool_decide (title ∈ ported) then describes
      else describes ++ [(title, lineno)]
  | None => describes
  end.

Definition scan (contents : list (list N)) : list (list N * nat) :=
  fold_left scan_line (enumerate contents 1) [].

(** Body of the loop of lines 98-109. *)
Definition add_stub (st : gmap (list N) nat * list (list N * nat * list N))
    (d : list N * nat) : gmap (list N) nat * list (list N * nat * list N) :=
  let '(seen, stubs) := st in
  let '(title, lineno) := d in
  let fn := snakeify title in
  let seen := <[fn := count_of seen fn + 1]> seen in
  let fn :=
    if 1 <? count_of seen fn
    then fn ++ py "_" ++ str_of_int (count_of seen fn)
    else fn in
  (seen, stubs ++ [(title, lineno, fn)]).

Definition make_stubs (describes : list (list N * nat))
    : list (list N * nat * list N) :=
  (fold_left add_stub describes (∅, [])).2.

Definition header : list (list N) :=
  [ py "//! Auto-generated placeholders for unported katex-spec.js suites.";
    py "//! Regenerate via `python aliter/scripts/generate_katex_spec_todos.py`.";
    [];
    py "#![allow(clippy::needless_doctest_main)]";
    [];
    py "use aliter::*;";
    [] ].

(** The comment of line 123. *)
Definition todo_comment (title : str) (lineno : nat) : str :=
  py "    // TODO: port " ++ [dquote] ++ title ++ [dquote] ++
  py " from katex-spec.js:" ++ str_of_int lineno.

(** Body of the loop of lines 119-126. *)
Definition emit_stub (out : list (list N)) (stub : list N * nat * list N)
    : list (list N) :=
  let '(title, lineno, fn) := stub in
  out ++
  [ py "#[test]";
    py "#[ignore]";
    py "fn " ++ fn ++ py "() {";
    todo_comment title lineno;
    py "    todo!(" ++ [dquote] ++ py "unported katex-spec.js suite" ++ [dquote] ++ py ");";
    py "}";
    [] ].

Definition render (stubs : list (list N * nat * list N)) : list (list N) :=
  fold_left emit_stub stubs header.

Definition main : IO unit :=
  text ← read_text;
  let contents := splitlines text in
  let describes := scan contents in
  let stubs := make_stubs describes in
  let out := render stubs in
  print (join [newline] out).

End Generator.

(** The set literal of lines 24-69. *)
Definition PORTED : gset (list N) :=
  list_to_set (map py
    [ "A parser"; "An ord parser"; "A bin parser"; "A rel parser";
      "A mathinner parser"; "A punct parser"; "An open parser";
      "A close parser"; "A \\KaTeX parser";
      "A subscript and superscript parser";
      "A subscript and superscript tree-builder";
      "A parser with limit controls"; "A group parser";
      "A supsub left/right nucleus parser"; "An over/underline parser";
      "A \\begingroup...\\endgroup parser"; "An implicit group parser";
      "A function parser"; "An over/brace/brack parser"; "A genfrac builder";
      "A infix builder"; "A text parser"; "A phantom parser";
      "A color parser"; "A kern parser"; "A rule parser";
      "A text-mode switch parser"; "An overbrace underbrace parser";
      "A text font parser"; "A math font parser"; "A spacing parser";
      "A text color parser"; "A delimiter sizing parser"; "A sqrt parser";
      "A binom parser"; "A frac parser"; "A left/right parser";
      "A matrix parser"; "A phantom sizing parser"; "A rule color parser";
      "An accent parser"; "A sizing parser"; "An arrow parser";
      "A href parser" ]%string).

(** Running the file as a script (lines 131-132): [main] on the literal
    set, and the exit status of the process. *)
Definition script `{Unicode} (w : World) : nat * World :=
  let (r, w') := main PORTED w in (exit_status r, w').

(** A [Unicode] that does nothing beyond ASCII, to run the generator on
    concrete inputs. *)
Definition ascii_only : Unicode :=
  {| unicode_lower := fun s => s; unicode_isalpha := fun _ => false |}.

(** Two encodings of standard output. *)
Definition ascii_encoding : Encoding :=
  {| encode_ascii := fun c => [c]; encode_other := fun _ => None |}.

Definition utf8_encoding : Encoding :=
  {| encode_ascii := fun c => [c];
     encode_other := fun c =>
       if (c <? 2048)%N then
         Some [192 + c / 64; 128 + c mod 64]%N
       else if (c <? 65536)%N then
         if ((55296 <=? c) && (c <=? 57343))%N then None
         else Some [224 + c / 4096; 128 + (c / 64) mod 64; 128 + c mod 64]%N
       else if (c <? 1114112)%N then
         Some [240 + c / 262144; 128 + (c / 4096) mod 64;
               128 + (c / 64) mod 64; 128 + c mod 64]%N
       else None |}.

(** ** Vocabulary of the specification *)

Section Vocabulary.
Context `{Unicode}.
Variable ported : gset (list N).

(** The title a line declares, if it is a declaration line. *)
Definition title_of (line : str) : option (list N) :=
  group1 line <$> re_match describe_re line.

(** The RawEntry sequence: every declaration of the file with its line
    number, before filtering. *)
Definition raw_entries (contents : list (list N)) : list (list N * nat) :=
  omap (fun item : nat * list N => (fun t => (t, item.1)) <$> title_of item.2)
       (enumerate contents 1).

(** The Stub sequence of a run on [text]. *)
Definition stubs_of (text : str) : list (list N * nat * list N) :=
  make_stubs (scan ported (splitlines text)).

(** The text a run on [text] hands to [print]. *)
Definition document (text : str) : str :=
  join [newline] (render (stubs_of text)).



Definition stub_title (s : list N * nat * list N) : list N := s.1.1.
Definition stub_line (s : list N * nat * list N) : nat := s.1.2.
Definition stub_ident (s : list N * nat * list N) : list N := s.2.

(** The function block of one Stub. *)
Definition block (stub : list N * nat * list N) : list (list N) :=
  emit_stub [] stub.

(** The regular expression ^[a-z][a-z0-9_]*$ read as a predicate. *)
Definition ident_char (c : char) : bool :=
  is_ascii_lower c || is_ascii_digit c || bool_decide (c = underscore).

Definition valid_identifier (s : str) : bool :=
  match s with
  | c :: r => is_ascii_lower c && forallb ident_char r
  | [] => false
  end.

(** The identifier for the [n]-th occurrence of base identifier [base]. *)
Definition numbered (base : str) (n : nat) : str :=
  if 1 <? n then base ++ py "_" ++ str_of_int n else base.

(** How many of the entries [ds] normalize to [base]. *)
Definition occurrences (base : str) (ds : list (list N * nat)) : nat :=
  length (filter (fun d => snakeify d.1 = base) ds).

(** The characters the first loop accepts in a title. *)
Definition not_quote : char -> bool := atom_ok (NotInSet [(dquote, dquote)]).

(** The characters left by the second substitution of [snakeify]. *)
Definition word_char (c : char) : bool :=
  is_ascii_lower c || is_ascii_upper c || is_ascii_digit c ||
  bool_decide (c = underscore).

(** The state of the second loop after the entries [ds]: the counter holds
    the occurrences of every base identifier, and the stub at each index
    carries the entry there and its numbered identifier. *)
Definition stubs_inv (ds : list (list N * nat))
    (st : gmap (list N) nat * list (list N * nat * list N)) : Prop :=
  (forall b, count_of st.1 b = occurrences b ds) /\
  length st.2 = length ds /\
  forall i d, ds !! i = Some d ->
    st.2 !! i =
    Some (d.1, d.2,
          numbered (snakeify d.1) (occurrences (snakeify d.1) (take (S i) ds))).

End Vocabulary.

(** The declaration line of a title [t]: describe( and [t] in double
    quotes, then [rest]. *)
Definition describe_line (t rest : str) : str :=
  py "describe(" ++ [dquote] ++ t ++ [dquote] ++ rest.

Definition unlines (ls : list (list N)) : str :=
  flat_map (fun l => l ++ [newline]) ls.

(** Sample inputs. *)
Definition fn_open : str := py ", function() {".

(** Three declarations; the third title normalizes to the numbered form
    of the first two. *)
Definition collision_text : str :=
  unlines [ describe_line (py "foo") fn_open;
            describe_line (py "foo") fn_open;
            describe_line (py "foo 2") fn_open ].

(** A ported title, a title opening with a digit, two titles with the
    same base identifier, an indented declaration, and the ported title
    again with a space after it. *)
Definition sample_text : str :=
  unlines [ describe_line (py "A parser") fn_open;
            py "    it(...)";
            describe_line (py "3D parser") fn_open;
            describe_line (py "foo") fn_open;
            py "  " ++ describe_line (py "nested") fn_open;
            describe_line (py "Foo!") fn_open;
            describe_line (py "A parser ") fn_open ].

(** Scenario B: the declaration on line 42. *)
Definition weird_title : str := py "A weird, Title!".
Definition scenario_b_text : str :=
  unlines (replicate 41 (py "// filler") ++ [describe_line weird_title fn_open]).

(** Two declarations with different base identifiers. *)
Definition plain_text : str :=
  unlines [ describe_line (py "Alpha beta") fn_open;
            describe_line (py "3D parser") fn_open ].

(** A title with a character outside ASCII (U+00E9), and the same file
    read by a run that prints as UTF-8 and by one that prints as ASCII. *)
Definition cafe_text : str :=
  unlines [ describe_line (py "Caf" ++ [233%N] ++ py " parser") fn_open ].


Definition ascii_world : World :=
  {| spec_file := inr cafe_text; stdout_encoding := ascii_encoding; stdout := [] |}.

(** A run on [sample_text] that prints as UTF-8, and a later run on
    [cafe_text] in a process that has printed before. *)
Definition sample_world : World :=
  {| spec_file := inr sample_text; stdout_encoding := utf8_encoding; stdout := [] |}.



(** The specification file is missing. *)
Definition missing_world : World :=
  {| spec_file := inl OSError; stdout_encoding := utf8_encoding; stdout := [] |}.

(** Nothing but a ported declaration. *)
Definition ported_text : str :=
  unlines [ py "// katex-spec.js"; describe_line (py "A parser") fn_open;
            py "});" ].

Definition ported_world : World :=
  {| spec_file := inr ported_text; stdout_encoding := ascii_encoding; stdout := [] |}.

(** ** Vocabulary for the further properties *)

(** The classes of the two patterns of [snakeify], as predicates. *)
Definition is_quote_char : char -> bool :=
  atom_ok (InSet [(backslash, backslash); (dquote, dquote); (squote, squote)]).

Definition not_alnum : char -> bool :=
  atom_ok (NotInSet [(97, 122); (65, 90); (48, 57)]%N).

Definition space : char := 32%N.

(** What [snakeify] holds in [clean] after line 77, with [lower] taken on
    ASCII text. *)
Definition normalized (name : str) : str :=
  map ascii_lower
    (strip (py "_") (re_sub nonalnum_re (py "_") (re_sub quote_re (py " ") name))).

(** No two underscores next to each other. *)
Fixpoint no_double_underscore (s : str) : bool :=
  match s with
  | c :: r =>
      match r with
      | d :: _ => negb (bool_decide (c = underscore) && bool_decide (d = underscore))
      | [] => true
      end && no_double_underscore r
  | [] => true
  end.

(** No line boundary of [str.splitlines] occurs in [s]. *)
Definition break_free (s : str) : Prop :=
  Forall (fun c => is_linebreak c = false) s.

(** ** Lists and loops *)

Section Lists.
Context {A : Type}.
Implicit Types (f : A -> bool) (l : list A).

Lemma take_while_app f l : take_while f l ++ drop_while f l = l.
Proof.
  induction l as [|x l IH]; simpl; [done|].
  destruct (f x); simpl; [by rewrite IH | done].
Qed.

Lemma take_while_Forall f l : Forall (fun x => f x = true) (take_while f l).
Proof.
  induction l as [|x l IH]; simpl; [constructor|].
  destruct (f x) eqn:E; by constructor.
Qed.

Lemma drop_while_head f l x : head (drop_while f l) = Some x -> f x = false.
Proof.
  induction l as [|y l IH]; simpl; [done|].
  destruct (f y) eqn:E; simpl; [done | congruence].
Qed.

Lemma take_take_while f l : take (length (take_while f l)) l = take_while f l.
Proof.
  induction l as [|x l IH]; simpl; [done|].
  destruct (f x); simpl; [by rewrite IH | done].
Qed.

(** [take_while] returns the longest prefix satisfying [f]. *)
Lemma take_while_spec f l t :
  take_while f l = t <->
  exists rest, l = t ++ rest /\ Forall (fun x => f x = true) t /\
    (rest = [] \/ exists x, head rest = Some x /\ f x = false).
Proof.
  split.
  - intros <-. exists (drop_while f l).
    split; [by rewrite take_while_app|]. split; [apply take_while_Forall|].
    destruct (drop_while f l) as [|x r] eqn:E; [by left|right].
    exists x. split; [done|]. apply (drop_while_head f l). by rewrite E.
  - intros (rest & -> & Ht & Hr). induction Ht as [|x t Hx Ht IH]; simpl.
    + destruct Hr as [->|(x & Hx & Hf)]; [done|].
      destruct rest; simplify_eq/=. by rewrite Hf.
    + by rewrite Hx, IH.
Qed.

Lemma drop_while_suffix f l : exists k, l = k ++ drop_while f l.
Proof. exists (take_while f l). by rewrite take_while_app. Qed.

Lemma drop_while_Forall (P : A -> Prop) f l :
  Forall P l -> Forall P (drop_while f l).
Proof.
  destruct (drop_while_suffix f l) as [k Hk]. intros HP.
  rewrite Hk in HP. by apply Forall_app in HP as [_ ?].
Qed.

Lemma enumerate_lookup l start i :
  enumerate l start !! i = (fun x => (start + i, x)) <$> l !! i.
Proof.
  revert start i. induction l as [|x l IH]; intros start [|i]; simpl; try done.
  - by rewrite Nat.add_0_r.
  - rewrite IH. by replace (S start + i) with (start + S i) by lia.
Qed.

Lemma enumerate_app l1 l2 start :
  enumerate (l1 ++ l2) start =
  enumerate l1 start ++ enumerate l2 (start + length l1).
Proof.
  revert start. induction l1 as [|x l1 IH]; intros start; simpl.
  - by rewrite Nat.add_0_r.
  - rewrite IH. by replace (S start + length l1) with (start + S (length l1)) by lia.
Qed.

Lemma enumerate_fst_sorted l start :
  StronglySorted lt (enumerate l start).*1.
Proof.
  revert start. induction l as [|x l IH]; intros start; simpl; constructor.
  - apply IH.
  - apply Forall_forall. intros n Hn.
    apply list_elem_of_fmap in Hn as ([m y] & -> & Hin).
    apply list_elem_of_lookup in Hin as [i Hi].
    rewrite enumerate_lookup in Hi.
    destruct (l !! i); simplify_eq/=. lia.
Qed.

End Lists.

(** ** The matcher on the three patterns *)

Section Matcher.

Lemma first_success_const {A} (g : nat -> A) n :
  first_success (fun k => Some (g k)) n =
  match n with 0 => None | S _ => Some (g n) end.
Proof. by destruct n. Qed.

(** A run of literals matches its own text and nothing else. *)
Lemma match_at_lits_app l p s pos o g :
  match_at (lits l ++ p) (l ++ s) pos o g = match_at p s (pos + length l) o g.
Proof.
  revert pos. induction l as [|c l IH]; intros pos; simpl.
  - by rewrite Nat.add_0_r.
  - rewrite bool_decide_eq_true_2 by done. rewrite IH. f_equal. lia.
Qed.

Lemma match_at_lits_inv l p s pos o g m :
  match_at (lits l ++ p) s pos o g = Some m -> exists s', s = l ++ s'.
Proof.
  revert s pos. induction l as [|c l IH]; intros s pos; simpl.
  - by exists s.
  - destruct s as [|d s]; [done|].
    case_bool_decide; [subst d|done].
    intros [s' ->]%IH. by exists s'.
Qed.

Lemma not_quote_true c : not_quote c = true <-> c <> dquote.
Proof.
  unfold not_quote, atom_ok, in_ranges, in_range, dquote. simpl.
  rewrite orb_false_r, negb_true_iff, andb_false_iff, !N.leb_gt. lia.
Qed.

Lemma Forall_not_quote (t : str) :
  Forall (fun c => not_quote c = true) t <-> dquote ∉ t.
Proof.
  rewrite Forall_forall. split.
  - intros Ht Hin. by apply Ht, not_quote_true in Hin.
  - intros Hn c Hc. apply not_quote_true. by intros ->.
Qed.

Lemma re_match_describe s :
  re_match describe_re (py "describe(" ++ dquote :: s) =
  match length (take_while not_quote s) with
  | 0 => None
  | S _ =>
      let e := 10 + length (take_while not_quote s) in
      Some {| m_end := e; m_group1 := Some (10, e) |}
  end.
Proof.
  unfold re_match, describe_re. rewrite match_at_lits_app.
  cbn [match_at atom_ok]. rewrite bool_decide_eq_true_2 by done.
  by rewrite first_success_const.
Qed.

Lemma group1_describe s k e :
  group1 (py "describe(" ++ dquote :: s)
    {| m_end := e; m_group1 := Some (10, 10 + k) |} = take k s.
Proof.
  unfold group1. cbn [m_group1]. by replace (10 + k - 10) with k by lia.
Qed.

(** What the declaration pattern accepts, and what group 1 then holds. *)
Lemma title_of_take_while line t :
  title_of line = Some t <->
  exists s, line = py "describe(" ++ dquote :: s /\
    t = take_while not_quote s /\ t <> [].
Proof.
  unfold title_of. split.
  - destruct (re_match _ _) as [m|] eqn:E; [|done].
    intros [= <-].
    destruct (match_at_lits_inv _ _ _ _ _ _ _ E) as [[|d s] ->]; [done|].
    assert (d = dquote) as ->.
    { unfold re_match, describe_re in E. rewrite match_at_lits_app in E.
      cbn [match_at atom_ok] in E. by case_bool_decide. }
    rewrite re_match_describe in E.
    destruct (length (take_while not_quote s)) as [|n] eqn:L; [done|].
    injection E as <-. exists s. split; [done|].
    rewrite (group1_describe s (S n)), <- L, take_take_while.
    split; [done|]. intros E. by rewrite E in L.
  - intros (s & -> & -> & Hne). rewrite re_match_describe.
    destruct (take_while not_quote s) as [|c t] eqn:L; [done|].
    cbn [length fmap option_fmap option_map]. f_equal.
    rewrite (group1_describe s (S (length t))), <- L.
    change (S (length t)) with (length (c :: t)).
    by rewrite <- L, take_take_while.
Qed.

End Matcher.

(** ** The three loops of [main] in closed form *)

Section Loops.
Context `{Unicode}.
Variable ported : gset (list N).

Lemma scan_line_fold items acc :
  fold_left (scan_line ported) items acc =
  acc ++ filter (fun e : list N * nat => e.1 ∉ ported)
           (omap (fun item : nat * list N =>
                    (fun t => (t, item.1)) <$> title_of item.2) items).
Proof.
  revert acc. induction items as [|[lineno line] items IH]; intros acc; simpl.
  - by rewrite app_nil_r.
  - rewrite IH. unfold title_of. destruct (re_match describe_re line) as [m|]; simpl; [|done].
    rewrite filter_cons. simpl. case_bool_decide as Hin.
    + by rewrite decide_False by (by intros ?).
    + rewrite decide_True by done. by rewrite <- app_assoc.
Qed.

(** The first loop keeps the declarations whose title is not in the set. *)
Lemma scan_filter contents :
  scan ported contents =
  filter (fun e : list N * nat => e.1 ∉ ported) (raw_entries contents).
Proof. unfold scan, raw_entries. by rewrite scan_line_fold. Qed.

Lemma occurrences_app base ds1 ds2 :
  occurrences base (ds1 ++ ds2) = occurrences base ds1 + occurrences base ds2.
Proof. unfold occurrences. by rewrite filter_app, length_app. Qed.

Lemma occurrences_singleton base d :
  occurrences base [d] = if decide (snakeify d.1 = base) then 1 else 0.
Proof.
  unfold occurrences. rewrite filter_cons, filter_nil.
  by destruct (decide _).
Qed.

Lemma add_stub_inv ds st d :
  stubs_inv ds st -> stubs_inv (ds ++ [d]) (add_stub st d).
Proof.
  destruct st as [seen stubs], d as [title lineno].
  intros (Hc & Hl & Hs). unfold add_stub, stubs_inv. cbn [fst snd] in *.
  assert (forall b, count_of (<[snakeify title := count_of seen (snakeify title) + 1]> seen) b
                    = occurrences b (ds ++ [(title, lineno)])) as Hc'.
  { intros b. rewrite occurrences_app, occurrences_singleton. cbn [fst].
    unfold count_of at 1. destruct (decide (snakeify title = b)) as [->|Hne].
    - rewrite lookup_insert_eq. simpl. by rewrite Hc.
    - rewrite lookup_insert_ne by done. fold (count_of seen b). rewrite Hc. lia. }
  split; [done|]. split.
  { rewrite !length_app, Hl. done. }
  intros i d Hi. destruct (decide (i < length ds)) as [Hlt|Hge].
  - rewrite lookup_app_l in Hi by done. rewrite lookup_app_l by lia.
    rewrite take_app_le by lia. by apply Hs.
  - apply lookup_lt_Some in Hi as Hlt. rewrite length_app in Hlt. simpl in Hlt.
    assert (i = length ds) as -> by lia.
    rewrite list_lookup_middle in Hi by done. injection Hi as <-.
    rewrite list_lookup_middle by done. cbn [fst snd].
    rewrite take_ge by (rewrite length_app; simpl; lia).
    by rewrite Hc'.
Qed.

Lemma fold_add_stub_inv ds : stubs_inv ds (fold_left add_stub ds (∅, [])).
Proof.
  induction ds as [|d ds IH] using rev_ind.
  - split; [|split]; [|done|done]. intros b. cbn [fst fold_left]. unfold count_of. by rewrite lookup_empty.
  - rewrite fold_left_app. by apply add_stub_inv.
Qed.

Lemma make_stubs_length ds : length (make_stubs ds) = length ds.
Proof. apply fold_add_stub_inv. Qed.

(** The second loop names the entry at index [i] after the number of
    entries up to and including it that share its base identifier. *)
Lemma make_stubs_lookup ds i d :
  ds !! i = Some d ->
  make_stubs ds !! i =
  Some (d.1, d.2,
        numbered (snakeify d.1) (occurrences (snakeify d.1) (take (S i) ds))).
Proof. apply fold_add_stub_inv. Qed.

Lemma make_stubs_entries ds :
  (fun s => (stub_title s, stub_line s)) <$> make_stubs ds = ds.
Proof.
  apply list_eq. intros i. rewrite list_lookup_fmap.
  destruct (ds !! i) as [[t l]|] eqn:E.
  - by rewrite (make_stubs_lookup _ _ _ E).
  - apply lookup_ge_None in E. rewrite lookup_ge_None_2; [done|].
    by rewrite make_stubs_length.
Qed.

Lemma emit_stub_fold stubs out :
  fold_left emit_stub stubs out = out ++ flat_map block stubs.
Proof.
  revert out. induction stubs as [|[[t l] fn] stubs IH]; intros out; simpl.
  - by rewrite app_nil_r.
  - rewrite IH. by rewrite <- !app_assoc.
Qed.

(** The third loop appends one block per stub to the header. *)
Lemma render_blocks stubs : render stubs = header ++ flat_map block stubs.
Proof. apply emit_stub_fold. Qed.

Lemma block_length stub : length (block stub) = 7.
Proof. by destruct stub as [[t l] fn]. Qed.

End Loops.

Lemma flat_map_lookup {A B} (f : A -> list B) n l i j x :
  (forall y, length (f y) = n) -> l !! i = Some x -> j < n ->
  flat_map f l !! (n * i + j) = f x !! j.
Proof.
  intros Hn. revert i. induction l as [|y l IH]; intros [|i] Hi Hj; simplify_eq/=.
  - rewrite Nat.mul_0_r. simpl. apply lookup_app_l. by rewrite Hn.
  - rewrite lookup_app_r by (rewrite Hn; nia).
    rewrite Hn. replace (n * S i + j - n) with (n * i + j) by nia. by apply IH.
Qed.

(** ** Identifiers *)

Ltac char_arith :=
  unfold word_char, ident_char, ascii_lower, is_ascii_upper, is_ascii_lower,
    is_ascii_digit, is_ascii, in_range, underscore in *;
  repeat case_bool_decide;
  repeat match goal with
    | |- context [(?a <=? ?b)%N] => destruct (N.leb_spec a b)
    | |- context [(?a <? ?b)%N] => destruct (N.ltb_spec a b)
    | H : context [(?a <=? ?b)%N] |- _ => destruct (N.leb_spec a b)
    | H : context [(?a <? ?b)%N] |- _ => destruct (N.ltb_spec a b)
    end;
  simpl in *; try (done || lia).

Section Identifiers.
Context `{Unicode}.

Lemma word_char_ascii c : word_char c = true -> is_ascii c = true.
Proof. char_arith. Qed.

Lemma ascii_lower_ident c : word_char c = true -> ident_char (ascii_lower c) = true.
Proof. char_arith. Qed.

Lemma ascii_lower_letter c :
  is_ascii_upper c || is_ascii_lower c = true ->
  is_ascii_lower (ascii_lower c) = true.
Proof. char_arith. Qed.

Lemma ascii_lower_digit c :
  word_char c = true -> c <> underscore ->
  is_ascii_upper c || is_ascii_lower c = false ->
  is_ascii_upper (ascii_lower c) || is_ascii_lower (ascii_lower c) = false /\
  ident_char (ascii_lower c) = true.
Proof. char_arith. Qed.

Lemma not_alnum_false c :
  atom_ok (NotInSet [(97, 122); (65, 90); (48, 57)]%N) c = false ->
  word_char c = true.
Proof.
  unfold atom_ok, in_ranges. simpl. char_arith.
Qed.

Lemma re_match_nonalnum s :
  m_end <$> re_match nonalnum_re s =
  match length (take_while (atom_ok (NotInSet [(97, 122); (65, 90); (48, 57)]%N)) s) with
  | 0 => None
  | S n => Some (S n)
  end.
Proof.
  unfold re_match, nonalnum_re. cbn [match_at].
  rewrite first_success_const. by destruct (length _).
Qed.

(** After the second substitution only letters, digits and underscores
    are left. *)
Lemma sub_scan_nonalnum skip s :
  Forall (fun c => word_char c = true) (sub_scan nonalnum_re (py "_") skip s).
Proof.
  revert skip. induction s as [|c s IH]; intros skip; simpl; [constructor|].
  destruct skip as [|k]; [|apply IH].
  rewrite re_match_nonalnum. cbn [take_while].
  destruct (atom_ok _ c) eqn:E; cbn [length].
  - simpl. constructor; [done|apply IH].
  - constructor; [by apply not_alnum_false|apply IH].
Qed.

Lemma strip_Forall (P : N -> Prop) chars s : Forall P s -> Forall P (strip chars s).
Proof.
  intros HP. unfold strip, rstrip, lstrip.
  apply Forall_reverse, drop_while_Forall, Forall_reverse.
  by apply drop_while_Forall.
Qed.

Lemma strip_head chars s c : head (strip chars s) = Some c -> c ∉ chars.
Proof.
  unfold strip, rstrip. set (x := lstrip chars s).
  destruct (drop_while_suffix (fun c => bool_decide (c ∈ chars)) (reverse x)) as [k Hk].
  fold (lstrip chars (reverse x)) in Hk.
  apply (f_equal reverse) in Hk. rewrite reverse_involutive, reverse_app in Hk.
  intros Hh. assert (head x = Some c) as Hx.
  { rewrite Hk. destruct (reverse (lstrip chars (reverse x))); by simplify_eq/=. }
  apply drop_while_head in Hx. by apply bool_decide_eq_false in Hx.
Qed.

Lemma lower_word s :
  Forall (fun c => word_char c = true) s -> lower s = map ascii_lower s.
Proof.
  intros Hs. unfold lower.
  assert (forallb is_ascii s = true) as ->; [|done].
  induction Hs as [|c s Hc Hs IH]; simpl; [done|].
  by rewrite word_char_ascii, IH.
Qed.

Lemma forallb_ident_lower s :
  Forall (fun c => word_char c = true) s ->
  forallb ident_char (map ascii_lower s) = true.
Proof.
  induction 1 as [|c s Hc Hs IH]; simpl; [done|].
  by rewrite ascii_lower_ident, IH.
Qed.

(** Steps 1-4 always give a valid identifier. *)
Lemma snakeify_valid name : valid_identifier (snakeify name) = true.
Proof.
  unfold snakeify.
  set (w := strip (py "_") (re_sub nonalnum_re (py "_") (re_sub quote_re (py " ") name))).
  assert (Forall (fun c => word_char c = true) w) as Hw
    by apply strip_Forall, sub_scan_nonalnum.
  assert (forall c, head w = Some c -> c <> underscore) as Hh.
  { intros c Hc%strip_head ->. apply Hc. by apply list_elem_of_singleton. }
  rewrite (lower_word _ Hw).
  destruct w as [|c r]; [done|]. cbn [map].
  apply Forall_cons in Hw as [Hc Hr].
  specialize (Hh c eq_refl).
  unfold isalpha. rewrite word_char_ascii by (apply ascii_lower_ident in Hc; revert Hc; char_arith).
  destruct (is_ascii_upper c || is_ascii_lower c) eqn:Hl.
  - pose proof (ascii_lower_letter _ Hl) as Hlow. rewrite Hlow, orb_true_r.
    cbn [valid_identifier]. by rewrite Hlow, forallb_ident_lower.
  - destruct (ascii_lower_digit _ Hc Hh Hl) as [-> Hi].
    change (py "katex_" ++ ?l) with (107 :: 97 :: 116 :: 101 :: 120 :: 95 :: l)%N.
    cbn [valid_identifier forallb]. rewrite Hi, forallb_ident_lower by done.
    done.
Qed.

Lemma uint_digits_ident d : forallb ident_char (uint_digits d) = true.
Proof. induction d; simpl; by rewrite ?IHd. Qed.

Lemma valid_identifier_app s t :
  valid_identifier s = true -> forallb ident_char t = true ->
  valid_identifier (s ++ t) = true.
Proof.
  destruct s as [|c s]; [done|]. simpl.
  intros [-> Hs]%andb_true_iff Ht. by rewrite forallb_app, Hs, Ht.
Qed.

(** Numbering a valid base identifier keeps it valid. *)
Lemma numbered_valid base n :
  valid_identifier base = true -> valid_identifier (numbered base n) = true.
Proof.
  intros Hb. unfold numbered. destruct (1 <? n); [|done].
  apply valid_identifier_app; [done|]. simpl. apply uint_digits_ident.
Qed.

End Identifiers.

(** ** Entries, line numbers and order *)

Section Entries.

Lemma raw_entries_from_sorted (contents : list (list N)) start :
  let es := omap (fun item : nat * list N =>
                    (fun t => (t, item.1)) <$> title_of item.2)
                 (enumerate contents start) in
  StronglySorted lt es.*2 /\ Forall (fun n => start <= n) es.*2.
Proof.
  revert start. induction contents as [|line contents IH]; intros start; simpl.
  { split; constructor. }
  destruct (IH (S start)) as [Hs Hf].
  assert (Forall (fun n => start < n)
            (omap (fun item : nat * list N =>
                     (fun t => (t, item.1)) <$> title_of item.2)
                  (enumerate contents (S start))).*2) as Hlt.
  { eapply Forall_impl; [exact Hf|]. simpl. lia. }
  destruct (title_of line) as [t|]; simpl.
  - split; constructor; try done.
    eapply Forall_impl; [exact Hlt|]. simpl. lia.
  - split; [done|]. eapply Forall_impl; [exact Hlt|]. simpl. lia.
Qed.

Lemma raw_entries_sorted contents : StronglySorted lt (raw_entries contents).*2.
Proof. apply raw_entries_from_sorted. Qed.

(** An entry is a declaration line together with its 1-based number. *)
Lemma raw_entries_elem contents t n :
  (t, n) ∈ raw_entries contents <->
  exists line, 1 <= n /\ contents !! (n - 1) = Some line /\ title_of line = Some t.
Proof.
  unfold raw_entries. rewrite list_elem_of_omap. split.
  - intros ([m line] & Hin & Ht). simpl in Ht.
    apply list_elem_of_lookup in Hin as [i Hi]. rewrite enumerate_lookup in Hi.
    destruct (contents !! i) as [l|] eqn:E; simplify_eq/=.
    destruct (title_of line) eqn:Et; simplify_eq/=.
    exists line. rewrite Nat.sub_0_r. split; [lia|done].
  - intros (line & Hn & Hl & Ht). exists (n, line). simpl. rewrite Ht. split; [|done].
    apply list_elem_of_lookup. exists (n - 1). rewrite enumerate_lookup, Hl. simpl.
    do 2 f_equal. lia.
Qed.

Lemma filter_snd_sorted {A} (P : A * nat -> Prop) `{!forall x, Decision (P x)}
    (l : list (A * nat)) :
  StronglySorted lt l.*2 -> StronglySorted lt (filter P l).*2.
Proof.
  induction l as [|x l IH]; simpl; [done|].
  intros [Hs Hf]%StronglySorted_inv. rewrite filter_cons.
  destruct (decide (P x)); [|by apply IH].
  simpl. constructor; [by apply IH|].
  apply Forall_forall. intros n ([t m] & -> & [_ Hin]%list_elem_of_filter)%list_elem_of_fmap.
  rewrite Forall_forall in Hf. apply Hf. apply list_elem_of_fmap. by exists (t, m).
Qed.

Lemma sorted_lt_NoDup (l : list nat) : StronglySorted lt l -> NoDup l.
Proof.
  induction 1 as [|x l Hs IH Hf]; constructor; [|done].
  intros Hin. rewrite Forall_forall in Hf. specialize (Hf _ Hin). lia.
Qed.

(** In a list sorted by line number, what stands before index [i] has a
    smaller line number. *)
Lemma sorted_lookup_lt {A} (l : list (A * nat)) i j x y :
  StronglySorted lt l.*2 -> l !! i = Some x -> l !! j = Some y -> i < j ->
  x.2 < y.2.
Proof.
  intros Hs. revert i j. induction l as [|z l IH]; intros i j Hi Hj Hij; [done|].
  simpl in Hs. apply StronglySorted_inv in Hs as [Hs Hf].
  destruct j as [|j]; [lia|]. simpl in Hj. destruct i as [|i]; simplify_eq/=.
  - rewrite Forall_forall in Hf. apply Hf. apply list_elem_of_fmap.
    exists y. split; [done|]. by eapply list_elem_of_lookup_2.
  - eapply IH; eauto. lia.
Qed.

Lemma filter_eq_length {A} `{EqDecision A} (l : list A) (x : A) :
  NoDup l -> x ∈ l -> length (filter (fun y => y = x) l) = 1.
Proof.
  induction 1 as [|y l Hy Hnd IH]; [by intros ?%not_elem_of_nil|].
  rewrite filter_cons. intros [->|Hin]%elem_of_cons.
  - rewrite decide_True by done. simpl. f_equal.
    apply length_zero_iff_nil. apply elem_of_nil_inv.
    intros z [-> Hz]%list_elem_of_filter. done.
  - rewrite decide_False by (by intros ->). by apply IH.
Qed.

Lemma filter_fmap_length {A B} `{EqDecision B} (g : A -> B) (l : list A) (x : B) :
  length (filter (fun a => g a = x) l) = length (filter (fun y => y = x) (g <$> l)).
Proof.
  induction l as [|a l IH]; [done|]. rewrite fmap_cons, !filter_cons.
  destruct (decide (g a = x)); simpl; by rewrite IH.
Qed.

End Entries.

(** ** One run *)

Section Run.
Context `{Unicode}.
Variable ported : gset (list N).

(** The entries that reach the second loop, in terms of the text. *)
Lemma stubs_of_entries text :
  (fun s => (stub_title s, stub_line s)) <$> stubs_of ported text =
  filter (fun e : list N * nat => e.1 ∉ ported) (raw_entries (splitlines text)).
Proof. unfold stubs_of. by rewrite make_stubs_entries, scan_filter. Qed.

Lemma scan_sorted contents : StronglySorted lt (scan ported contents).*2.
Proof. rewrite scan_filter. apply filter_snd_sorted, raw_entries_sorted. Qed.

Lemma encode_app enc s t :
  encode enc (s ++ t) =
  match encode enc s, encode enc t with
  | Some a, Some b => Some (a ++ b)
  | _, _ => None
  end.
Proof.
  induction s as [|c s IH]; simpl.
  - by destruct (encode enc t).
  - rewrite IH. destruct (encode_char enc c), (encode enc s), (encode enc t);
      try done. by rewrite app_assoc.
Qed.

Lemma encode_newline enc : encode enc [newline] = Some (encode_ascii enc newline).
Proof. simpl. unfold encode_char. simpl. by rewrite app_nil_r. Qed.

(** ASCII text is always encoded. *)
Lemma encode_ascii_text enc s :
  forallb is_ascii s = true -> encode enc s = Some (flat_map (encode_ascii enc) s).
Proof.
  induction s as [|c s IH]; simpl; [done|].
  intros [Hc Hs]%andb_true_iff. unfold encode_char. by rewrite Hc, IH.
Qed.

(** [print] writes the bytes of its text and of the newline, or raises and
    writes nothing. *)
Lemma print_written s w bytes :
  encode (stdout_encoding w) s = Some bytes ->
  print s w =
  (inr tt, {| spec_file := spec_file w;
              stdout_encoding := stdout_encoding w;
              stdout := stdout w ++ bytes ++
                        encode_ascii (stdout_encoding w) newline |}).
Proof.
  intros E. unfold print, mbind, IO_bind, write. rewrite E. cbn [stdout_encoding].
  rewrite encode_newline. cbn [spec_file stdout_encoding stdout].
  by rewrite <- app_assoc.
Qed.

Lemma print_raises s w :
  encode (stdout_encoding w) s = None -> print s w = (inl UnicodeEncodeError, w).
Proof. intros E. unfold print, mbind, IO_bind, write. by rewrite E. Qed.

(** A run on a readable file prints the joined lines. *)
Lemma main_prints w text :
  spec_file w = inr text ->
  main ported w = print (document ported text) w.
Proof.
  intros Hf. unfold main, mbind, IO_bind, read_text. by rewrite Hf.
Qed.


Lemma main_raises w e :
  spec_file w = inl e -> main ported w = (inl e, w).
Proof.
  intros Hf. unfold main, mbind, IO_bind, read_text. by rewrite Hf.
Qed.

End Run.

(** ** The claims of the specification *)

Section Claims.
Context `{Unicode}.
Variable ported : gset (list N).

(** C1 (uniqueness of identifiers): the numbered identifier of a repeated
    base is not checked against the other bases. On [collision_text] the
    second declaration of foo and the declaration of foo 2 both receive
    foo_2, so the identifiers of one run are not pairwise distinct. *)
Theorem identifiers_collide :
  stub_ident <$> stubs_of PORTED collision_text =
    [py "foo"; py "foo_2"; py "foo_2"] /\
  ~ NoDup (stub_ident <$> stubs_of PORTED collision_text).
Proof.
  assert (stub_ident <$> stubs_of PORTED collision_text =
          [py "foo"; py "foo_2"; py "foo_2"]) as E by (vm_compute; reflexivity).
  split; [exact E|]. rewrite E.
  intros [_ Hnd]%NoDup_cons. apply NoDup_cons in Hnd as [Hnot _].
  apply Hnot. by apply list_elem_of_singleton.
Qed.

(** C2 (identifier validity): the identifier of every stub of a run is
    non-empty, opens with a lowercase ASCII letter and holds only
    lowercase ASCII letters, ASCII digits and underscores. *)
Theorem identifiers_valid text stub :
  stub ∈ stubs_of ported text -> valid_identifier (stub_ident stub) = true.
Proof.
  intros [i Hi]%list_elem_of_lookup_1. unfold stubs_of in Hi.
  destruct (scan ported (splitlines text) !! i) as [d|] eqn:E.
  - rewrite (make_stubs_lookup _ _ _ E) in Hi. injection Hi as <-.
    apply numbered_valid, snakeify_valid.
  - apply lookup_ge_None in E. apply lookup_lt_Some in Hi.
    rewrite make_stubs_length in Hi. lia.
Qed.

(** C3 (collision numbering): the surviving entry at index [i] whose title
    normalizes to [base] is the [n]-th such entry so far, [n] counted from
    1; its stub keeps [base] when [n] is 1 and is named [base], an
    underscore and the decimal digits of [n] otherwise. *)
Theorem collisions_numbered text i title lineno :
  scan ported (splitlines text) !! i = Some (title, lineno) ->
  let base := snakeify title in
  let n := occurrences base (take (S i) (scan ported (splitlines text))) in
  1 <= n /\
  stubs_of ported text !! i =
    Some (title, lineno,
          if decide (n = 1) then base else base ++ py "_" ++ str_of_int n).
Proof.
  intros Hi base n.
  assert (1 <= n) as Hn.
  { unfold n. rewrite (take_S_r _ _ _ Hi), occurrences_app, occurrences_singleton.
    cbn [fst]. rewrite decide_True by done. lia. }
  split; [done|]. unfold stubs_of. rewrite (make_stubs_lookup _ _ _ Hi).
  cbn [fst snd]. fold base. fold n. unfold numbered.
  destruct (decide (n = 1)) as [->|Hne]; [done|].
  by rewrite (proj2 (Nat.ltb_lt 1 n)) by lia.
Qed.

(** C4 (filter correctness): the titles and line numbers of the stubs are
    exactly the extracted entries whose title is not an element of the
    set, in the order of extraction; no stub carries a title of the set;
    an entry outside the set has exactly one stub. Elements of the set
    are compared as sequences of code points, unchanged. *)
Theorem filter_correct text :
  let entries := raw_entries (splitlines text) in
  let stubs := stubs_of ported text in
  (fun s => (stub_title s, stub_line s)) <$> stubs =
    filter (fun e : list N * nat => e.1 ∉ ported) entries /\
  (forall s, s ∈ stubs -> stub_title s ∉ ported) /\
  (forall e, e ∈ entries -> e.1 ∉ ported ->
     length (filter (fun s => (stub_title s, stub_line s) = e) stubs) = 1).
Proof.
  intros entries stubs. pose proof (stubs_of_entries ported text) as E.
  fold entries stubs in E. split; [exact E|]. split.
  - intros s Hs.
    assert ((stub_title s, stub_line s) ∈
            filter (fun e : list N * nat => e.1 ∉ ported) entries) as Hin.
    { rewrite <- E. apply list_elem_of_fmap. by exists s. }
    by apply list_elem_of_filter in Hin as [? _].
  - intros e He Hp. rewrite filter_fmap_length, E. apply filter_eq_length.
    + apply (NoDup_fmap_1 snd), sorted_lt_NoDup, filter_snd_sorted, raw_entries_sorted.
    + by apply list_elem_of_filter.
Qed.

(** C5 (traceability): the stub at index [i] comes from a line of the
    input that declares its title, and its line number is the 1-based
    number of that line; the fourth line of its block, right after the
    line that opens the function, is the comment that quotes the title
    and ends with the decimal line number. *)
Theorem comment_traces_declaration text i title lineno fn :
  stubs_of ported text !! i = Some (title, lineno, fn) ->
  (exists line, 1 <= lineno /\
     splitlines text !! (lineno - 1) = Some line /\
     title_of line = Some title) /\
  render (stubs_of ported text) !! (7 + 7 * i + 2) =
    Some (py "fn " ++ fn ++ py "() {") /\
  render (stubs_of ported text) !! (7 + 7 * i + 3) =
    Some (py "    // TODO: port " ++ [dquote] ++ title ++ [dquote] ++
          py " from katex-spec.js:" ++ str_of_int lineno).
Proof.
  intros Hi. split; [|split].
  - apply raw_entries_elem.
    assert ((title, lineno) ∈
            (fun s => (stub_title s, stub_line s)) <$> stubs_of ported text) as Hin.
    { apply list_elem_of_fmap. exists (title, lineno, fn).
      split; [done|]. by eapply list_elem_of_lookup_2. }
    rewrite stubs_of_entries in Hin. by apply list_elem_of_filter in Hin as [_ ?].
  - rewrite render_blocks, lookup_app_r by (simpl; lia).
    replace (7 + 7 * i + 2 - length header) with (7 * i + 2) by (simpl; lia).
    by rewrite (flat_map_lookup block 7 _ _ _ _ block_length Hi) by lia.
  - rewrite render_blocks, lookup_app_r by (simpl; lia).
    replace (7 + 7 * i + 3 - length header) with (7 * i + 3) by (simpl; lia).
    by rewrite (flat_map_lookup block 7 _ _ _ _ block_length Hi) by lia.
Qed.

(** C6 (scenario B): steps 1-4 turn the title A weird, Title! into
    a_weird_title; and a run on an input whose line [j + 1] declares that
    title, with the title outside the set and no surviving entry before
    that line with the same base identifier, has the stub that names the
    title on that line a_weird_title. *)
Theorem weird_title_identifier :
  snakeify weird_title = py "a_weird_title" /\
  forall text j rest,
    splitlines text !! j = Some (describe_line weird_title rest) ->
    weird_title ∉ ported ->
    (forall e, e ∈ scan ported (splitlines text) -> e.2 < S j ->
       snakeify e.1 <> py "a_weird_title") ->
    (weird_title, S j, py "a_weird_title") ∈ stubs_of ported text.
Proof.
  assert (snakeify weird_title = py "a_weird_title") as Hb
    by (vm_compute; reflexivity).
  split; [exact Hb|]. intros text j rest Hj Hp Hfirst.
  assert (title_of (describe_line weird_title rest) = Some weird_title) as Ht.
  { apply title_of_take_while. exists (weird_title ++ dquote :: rest).
    split; [reflexivity|]. split; [reflexivity|done]. }
  assert ((weird_title, S j) ∈ scan ported (splitlines text)) as Hin.
  { rewrite scan_filter. apply list_elem_of_filter. split; [done|].
    apply raw_entries_elem. exists (describe_line weird_title rest).
    split; [lia|]. split; [|done]. by replace (S j - 1) with j by lia. }
  apply list_elem_of_lookup_1 in Hin as [i Hi].
  apply (list_elem_of_lookup_2 _ i). unfold stubs_of.
  rewrite (make_stubs_lookup _ _ _ Hi). cbn [fst snd].
  rewrite (take_S_r _ _ _ Hi), occurrences_app, occurrences_singleton.
  cbn [fst]. rewrite decide_True by done.
  assert (occurrences (snakeify weird_title)
            (take i (scan ported (splitlines text))) = 0) as ->.
  { apply length_zero_iff_nil, elem_of_nil_inv.
    intros e [He Hin]%list_elem_of_filter.
    apply elem_of_take in Hin as (k & Hk & Hlt).
    apply (Hfirst e); [by eapply list_elem_of_lookup_2| |by rewrite <- Hb].
    apply (sorted_lookup_lt _ k i e _ (scan_sorted ported _) Hk Hi Hlt). }
  by rewrite Hb.
Qed.

(** C7 (order): the line numbers of the stubs increase strictly along the
    stub sequence, and the emitted lines are the header followed by the
    blocks of the stubs in that same sequence. *)
Theorem stubs_in_file_order text :
  StronglySorted lt (stub_line <$> stubs_of ported text) /\
  render (stubs_of ported text) =
    header ++ flat_map block (stubs_of ported text).
Proof.
  split; [|apply render_blocks].
  replace (stub_line <$> stubs_of ported text)
    with (((fun s => (stub_title s, stub_line s)) <$> stubs_of ported text).*2)
    by (by rewrite <- list_fmap_compose).
  rewrite stubs_of_entries. apply filter_snd_sorted, raw_entries_sorted.
Qed.

(** C8 (input unavailable): when the specification file cannot be read,
    [main] raises, standard output is left as it was, and the script ends
    with a non-zero exit status. *)
Theorem unreadable_input_aborts w e :
  spec_file w = inl e ->
  main ported w = (inl e, w) /\
  stdout (main ported w).2 = stdout w /\
  script w = (1, w).
Proof.
  intros Hf. unfold script. rewrite !(main_raises _ w e) by done. done.
Qed.

(** C10 (declaration lines): a line has a title exactly when it opens with
    describe( and a double quote followed by at least one character other
    than a double quote, and the title is the longest run of such
    characters: it ends at the end of the line or at the next double
    quote. So an empty pair of quotes declares nothing, neither a closing
    quote nor a closing parenthesis is needed, and a title with a
    backslash-escaped quote stops before that quote. *)
Theorem declaration_lines :
  (forall line title,
     title_of line = Some title <->
     exists rest,
       line = py "describe(" ++ [dquote] ++ title ++ rest /\
       title <> [] /\ (dquote ∉ title) /\
       (rest = [] \/ head rest = Some dquote)) /\
  title_of (py "describe(" ++ [dquote; dquote] ++ py ", f)") = None /\
  title_of (py "describe(" ++ [dquote] ++ py "open end") = Some (py "open end") /\
  title_of (py "describe(" ++ [dquote] ++ py "a " ++ [backslash; dquote] ++
            py " b" ++ [dquote] ++ py ", f)") = Some (py "a " ++ [backslash]).
Proof.
  split; [|by vm_compute].
  intros line title. rewrite title_of_take_while. split.
  - intros (s & -> & Ht & Hne). symmetry in Ht.
    apply take_while_spec in Ht as (rest & -> & Hall & Hrest).
    exists rest. split; [done|]. split; [done|].
    split; [by apply Forall_not_quote|].
    destruct Hrest as [->|(x & Hx & Hq)]; [by left|right].
    rewrite Hx. f_equal. destruct (decide (x = dquote)) as [|Hd]; [done|].
    apply not_quote_true in Hd. congruence.
  - intros (rest & -> & Hne & Hq & Hrest). exists (title ++ rest).
    split; [done|]. split; [|done]. symmetry. apply take_while_spec.
    exists rest. split; [done|]. split; [by apply Forall_not_quote|].
    destruct Hrest as [->|Hh]; [by left|right].
    exists dquote. split; [done|]. by vm_compute.
Qed.

End Claims.

(** ** The claims on the sample inputs *)

Lemma identifiers_valid_witness :
  (py "3D parser", 3, py "katex_3d_parser") ∈ @stubs_of ascii_only PORTED sample_text /\
  valid_identifier (py "katex_3d_parser") = true.
Proof.
  assert ((py "3D parser", 3, py "katex_3d_parser")
          ∈ @stubs_of ascii_only PORTED sample_text) as Hin
    by (apply (list_elem_of_lookup_2 _ 0); vm_compute; reflexivity).
  split; [exact Hin|].
  exact (@identifiers_valid ascii_only PORTED sample_text _ Hin).
Defined.

Lemma collisions_numbered_witness :
  scan PORTED (splitlines sample_text) !! 2 = Some (py "Foo!", 6) /\
  @stubs_of ascii_only PORTED sample_text !! 1 = Some (py "foo", 4, py "foo") /\
  @stubs_of ascii_only PORTED sample_text !! 2 = Some (py "Foo!", 6, py "foo_2").
Proof.
  assert (scan PORTED (splitlines sample_text) !! 2 = Some (py "Foo!", 6)) as H2
    by (vm_compute; reflexivity).
  assert (scan PORTED (splitlines sample_text) !! 1 = Some (py "foo", 4)) as H1
    by (vm_compute; reflexivity).
  split; [exact H2|]. split.
  - destruct (@collisions_numbered ascii_only PORTED sample_text 1 _ _ H1) as [_ Hs].
    rewrite Hs. vm_compute. reflexivity.
  - destruct (@collisions_numbered ascii_only PORTED sample_text 2 _ _ H2) as [_ Hs].
    rewrite Hs. vm_compute. reflexivity.
Defined.

Lemma filter_correct_witness :
  py "A parser" ∈ PORTED /\
  raw_entries (splitlines sample_text) =
    [ (py "A parser", 1); (py "3D parser", 3); (py "foo", 4); (py "Foo!", 6);
      (py "A parser ", 7) ] /\
  (fun s => (stub_title s, stub_line s)) <$> @stubs_of ascii_only PORTED sample_text =
    [ (py "3D parser", 3); (py "foo", 4); (py "Foo!", 6); (py "A parser ", 7) ].
Proof.
  split; [by vm_compute|]. split; [by vm_compute|].
  destruct (@filter_correct ascii_only PORTED sample_text) as [E _].
  rewrite E. vm_compute. reflexivity.
Defined.

Lemma comment_traces_declaration_witness :
  @stubs_of ascii_only PORTED scenario_b_text !! 0 =
    Some (weird_title, 42, py "a_weird_title") /\
  splitlines scenario_b_text !! 41 = Some (describe_line weird_title fn_open) /\
  render (@stubs_of ascii_only PORTED scenario_b_text) !! 10 =
    Some (py "    // TODO: port " ++ [dquote] ++ py "A weird, Title!" ++ [dquote] ++
          py " from katex-spec.js:42").
Proof.
  assert (@stubs_of ascii_only PORTED scenario_b_text !! 0 =
          Some (weird_title, 42, py "a_weird_title")) as H0
    by (vm_compute; reflexivity).
  split; [exact H0|]. split; [by vm_compute|].
  destruct (@comment_traces_declaration ascii_only PORTED scenario_b_text 0 _ _ _ H0)
    as (_ & _ & Hc).
  exact Hc.
Defined.

Lemma weird_title_identifier_witness :
  (weird_title, 42, py "a_weird_title") ∈ @stubs_of ascii_only PORTED scenario_b_text.
Proof.
  destruct (@weird_title_identifier ascii_only PORTED) as [_ Hrun].
  apply (Hrun scenario_b_text 41 fn_open).
  - vm_compute. reflexivity.
  - apply (proj1 (bool_decide_eq_false (weird_title ∈ PORTED))). vm_compute. reflexivity.
  - assert (scan PORTED (splitlines scenario_b_text) = [(weird_title, 42)]) as ->
      by (vm_compute; reflexivity).
    intros e ->%list_elem_of_singleton. simpl. lia.
Defined.


Lemma unreadable_input_aborts_witness :
  spec_file missing_world = inl OSError /\
  @script ascii_only missing_world = (1, missing_world).
Proof.
  split; [reflexivity|].
  apply (@unreadable_input_aborts ascii_only PORTED missing_world OSError).
  reflexivity.
Defined.

(** * Further properties of the code *)

(** ** The matcher *)

Section MatcherBounds.

Lemma first_success_Some {A} (f : nat -> option A) n r :
  first_success f n = Some r -> exists k, 1 <= k <= n /\ f k = Some r.
Proof.
  induction n as [|n IH]; simpl; [done|].
  destruct (f (S n)) as [r'|] eqn:E.
  - intros [= <-]. exists (S n). split; [lia|done].
  - intros (k & Hk & Hf)%IH. exists k. split; [lia|done].
Qed.

Lemma take_while_length {A} (f : A -> bool) (l : list A) :
  length (take_while f l) <= length l.
Proof.
  induction l as [|x l IH]; simpl; [done|]. destruct (f x); simpl; lia.
Qed.

(** A match never ends before the offset it started at nor beyond the end
    of the subject. *)
Lemma match_at_bounds p s pos o g m :
  match_at p s pos o g = Some m -> pos <= m_end m <= pos + length s.
Proof.
  revert s pos o g. induction p as [|nd p IH]; intros s pos o g; simpl.
  - intros [= <-]. simpl. lia.
  - destruct nd as [a|a| |].
    + destruct s as [|c s]; [done|]. destruct (atom_ok a c); [|done].
      intros Hm%IH. simpl. lia.
    + intros (k & Hk & Hm%IH)%first_success_Some.
      pose proof (take_while_length (atom_ok a) s).
      rewrite length_drop in Hm. lia.
    + intros Hm%IH. lia.
    + intros Hm%IH. lia.
Qed.

(** X1 (span of the title): whenever the pattern of line 89 matches a
    line, group 1 opens at offset 10, right after the opening quote, is not
    empty and ends where the match ends, inside the line; so that
    [m.group(1)] is the piece of the line from offset 10 to the end of the
    match and never reads past the line. *)
Theorem group1_span_inside line m :
  re_match describe_re line = Some m ->
  m_group1 m = Some (10, m_end m) /\
  10 < m_end m <= length line /\
  group1 line m = take (m_end m - 10) (drop 10 line).
Proof.
  intros Hm.
  assert (m_group1 m = Some (10, m_end m) /\ 10 < m_end m) as [Hg Hlt].
  { destruct (match_at_lits_inv _ _ _ _ _ _ _ Hm) as [[|d s] ->]; [done|].
    assert (d = dquote) as ->.
    { unfold re_match, describe_re in Hm. rewrite match_at_lits_app in Hm.
      cbn [match_at atom_ok] in Hm. by case_bool_decide. }
    rewrite re_match_describe in Hm.
    destruct (length (take_while not_quote s)) as [|n]; [done|].
    injection Hm as <-. simpl. split; [done|lia]. }
  split; [exact Hg|]. split.
  - split; [exact Hlt|]. apply match_at_bounds in Hm. lia.
  - unfold group1. by rewrite Hg.
Qed.

End MatcherBounds.

(** ** The two substitutions of [snakeify] *)

Section Substitutions.

Lemma sub_scan_skip p repl k s :
  sub_scan p repl k s = sub_scan p repl 0 (drop k s).
Proof.
  revert k. induction s as [|c s IH]; intros [|k]; simpl; auto.
Qed.

Lemma drop_take_while {A} (f : A -> bool) (l : list A) :
  drop (length (take_while f l)) l = drop_while f l.
Proof.
  induction l as [|x l IH]; simpl; [done|]. by destruct (f x).
Qed.

Lemma re_match_quote c s :
  m_end <$> re_match quote_re (c :: s) = if is_quote_char c then Some 1 else None.
Proof.
  unfold re_match, quote_re, is_quote_char. cbn [match_at].
  by destruct (atom_ok _ c).
Qed.

(** X2 (no empty match): neither pattern that [snakeify] substitutes can
    match the empty string: every match consumes at least one character. *)
Theorem sub_patterns_consume s m :
  re_match quote_re s = Some m \/ re_match nonalnum_re s = Some m ->
  1 <= m_end m.
Proof.
  intros [Hm|Hm].
  - destruct s as [|c s]; [done|].
    pose proof (re_match_quote c s) as E. rewrite Hm in E. simpl in E.
    destruct (is_quote_char c); simplify_eq/=. lia.
  - pose proof (re_match_nonalnum s) as E. rewrite Hm in E. simpl in E.
    destruct (length _); simplify_eq/=. lia.
Qed.

Lemma re_sub_quote_eq s :
  re_sub quote_re (py " ") s =
  map (fun c => if is_quote_char c then space else c) s.
Proof.
  unfold re_sub. induction s as [|c s IH]; [done|].
  cbn [sub_scan map]. rewrite re_match_quote.
  destruct (is_quote_char c); by rewrite IH.
Qed.

(** X3 (first substitution): each backslash, double quote and single quote
    becomes one space and every other character stays in place, so that
    the length of the title is kept. *)
Theorem quotes_become_spaces s :
  re_sub quote_re (py " ") s =
    map (fun c => if is_quote_char c then space else c) s /\
  length (re_sub quote_re (py " ") s) = length s.
Proof. rewrite re_sub_quote_eq. split; [done|apply length_map]. Qed.

(** The second substitution, one step at a time: a character outside
    a-z, A-Z, 0-9 is replaced, together with the run of such characters
    after it, by one underscore. *)
Lemma re_sub_nonalnum_cons c s :
  re_sub nonalnum_re (py "_") (c :: s) =
  if not_alnum c
  then underscore :: re_sub nonalnum_re (py "_") (drop_while not_alnum s)
  else c :: re_sub nonalnum_re (py "_") s.
Proof.
  unfold re_sub. cbn [sub_scan]. rewrite re_match_nonalnum. cbn [take_while].
  fold not_alnum. destruct (not_alnum c); cbn [length]; [|done].
  simpl. by rewrite sub_scan_skip, drop_take_while.
Qed.

End Substitutions.

(** ** What [snakeify] returns *)

Ltac class_arith :=
  unfold is_quote_char, not_alnum, atom_ok, in_ranges, space, backslash,
    dquote, squote in *;
  simpl in *; char_arith.

Section Characters.

Lemma quote_char_not_alnum c : is_quote_char c = true -> not_alnum c = true.
Proof. class_arith. Qed.

Lemma ident_char_not_quote c : ident_char c = true -> is_quote_char c = false.
Proof. class_arith. Qed.

Lemma alnum_not_quote c : not_alnum c = false -> is_quote_char c = false.
Proof. class_arith. Qed.

Lemma alnum_word_char c : not_alnum c = false -> word_char c = true.
Proof. class_arith. Qed.

Lemma alnum_not_underscore c : not_alnum c = false -> c <> underscore.
Proof. class_arith. Qed.

Lemma ident_char_alnum c :
  ident_char c = true -> c <> underscore -> not_alnum c = false.
Proof. class_arith. Qed.

Lemma ident_char_lower c : ident_char c = true -> ascii_lower c = c.
Proof. class_arith. Qed.

Lemma ident_char_word c : ident_char c = true -> word_char c = true.
Proof. class_arith. Qed.

Lemma ascii_lower_underscore c : ascii_lower c = underscore <-> c = underscore.
Proof. split; class_arith. Qed.

Lemma ascii_lower_not_upper c : is_ascii_upper (ascii_lower c) = false.
Proof. class_arith. Qed.

Lemma alnum_lower_class c :
  not_alnum c = false ->
  is_ascii_lower (ascii_lower c) = negb (is_ascii_digit c) /\
  (is_ascii_digit c = true -> ascii_lower c = c).
Proof. class_arith. Qed.

Lemma digit_not_underscore c : is_ascii_digit c = true -> c <> underscore.
Proof. class_arith. Qed.

Lemma lower_not_underscore c : is_ascii_lower c = true -> c <> underscore.
Proof. class_arith. Qed.

Lemma in_underscore c : c ∈ py "_" <-> c = underscore.
Proof. apply list_elem_of_singleton. Qed.

End Characters.

Section SnakeifyForm.

Lemma stripped_word name :
  Forall (fun c => word_char c = true)
    (strip (py "_") (re_sub nonalnum_re (py "_") (re_sub quote_re (py " ") name))).
Proof. apply strip_Forall, sub_scan_nonalnum. Qed.

(** [snakeify] without [lower] and [isalpha]: both only ever see ASCII. *)
Lemma snakeify_normalized `{Unicode} name :
  snakeify name =
  match normalized name with
  | [] => py "unknown"
  | c :: _ =>
      if is_ascii_lower c then normalized name
      else py "katex_" ++ normalized name
  end.
Proof.
  unfold snakeify, normalized. pose proof (stripped_word name) as Hw.
  rewrite (lower_word _ Hw).
  destruct (strip _ _) as [|c r]; [done|]. cbn [map].
  apply Forall_cons in Hw as [Hc _].
  unfold isalpha.
  rewrite word_char_ascii by (apply ident_char_word, ascii_lower_ident, Hc).
  by rewrite ascii_lower_not_upper.
Qed.

Lemma add_stub_ext (U1 U2 : Unicode) st d :
  (forall name, @snakeify U1 name = @snakeify U2 name) ->
  @add_stub U1 st d = @add_stub U2 st d.
Proof. intros E. destruct st, d. unfold add_stub. by rewrite E. Qed.

Lemma make_stubs_ext (U1 U2 : Unicode) ds :
  (forall name, @snakeify U1 name = @snakeify U2 name) ->
  @make_stubs U1 ds = @make_stubs U2 ds.
Proof.
  intros E. unfold make_stubs. generalize (∅ : gmap (list N) nat, [] : list (list N * nat * list N)).
  induction ds as [|d ds IH]; intros st; simpl; [done|].
  by rewrite (add_stub_ext U1 U2 st d E), IH.
Qed.

(** X4 (ASCII only): [lower] is applied only to text of ASCII letters,
    digits and underscores and [isalpha] only to an ASCII character, so
    that a run does not depend on what these methods do beyond ASCII. *)
Theorem main_ascii_only (U1 U2 : Unicode) ported w :
  @main U1 ported w = @main U2 ported w.
Proof.
  assert (forall name, @snakeify U1 name = @snakeify U2 name) as E.
  { intros name. by rewrite !snakeify_normalized. }
  unfold main, mbind, IO_bind. destruct (read_text w) as [[e|text] w']; [done|].
  by rewrite (make_stubs_ext U1 U2 _ E).
Qed.

End SnakeifyForm.

(** ** Two runs *)

Section TwoRuns.
Variable ported : gset (list N).



End TwoRuns.

Section SnakeifyShape.
Context `{Unicode}.

Lemma drop_while_all {A} (f : A -> bool) (l : list A) :
  Forall (fun x => f x = true) l -> drop_while f l = [].
Proof. induction 1 as [|x l Hx _ IH]; simpl; [done|]. by rewrite Hx. Qed.

Lemma drop_while_run {A} (f : A -> bool) (l : list A) x r :
  Forall (fun x => f x = true) l -> f x = false ->
  drop_while f (l ++ x :: r) = x :: r.
Proof.
  intros Hl Hx. induction Hl as [|y l Hy _ IH]; simpl.
  - by rewrite Hx.
  - by rewrite Hy.
Qed.

Lemma drop_while_snoc {A} (f : A -> bool) (l : list A) x :
  f x = false -> drop_while f (l ++ [x]) = drop_while f l ++ [x].
Proof.
  intros Hx. induction l as [|y l IH]; simpl.
  - by rewrite Hx.
  - by destruct (f y).
Qed.

Lemma quote_map_nonalnum s :
  Forall (fun c => not_alnum c = true) s ->
  Forall (fun c => not_alnum c = true)
    (map (fun c => if is_quote_char c then space else c) s).
Proof.
  induction 1 as [|c s Hc _ IH]; simpl; constructor; [|done].
  by destruct (is_quote_char c).
Qed.

Lemma collapse_all_nonalnum s :
  Forall (fun c => not_alnum c = true) s ->
  re_sub nonalnum_re (py "_") s = [] \/
  re_sub nonalnum_re (py "_") s = [underscore].
Proof.
  destruct 1 as [|c s Hc Hs]; [by left|right].
  by rewrite re_sub_nonalnum_cons, Hc, drop_while_all.
Qed.

(** X5 (fallback): a title without any ASCII letter or digit, the empty
    title included, is named unknown. *)
Theorem snakeify_unknown name :
  Forall (fun c => not_alnum c = true) name -> snakeify name = py "unknown".
Proof.
  intros Hn. rewrite snakeify_normalized. unfold normalized.
  rewrite re_sub_quote_eq.
  by destruct (collapse_all_nonalnum _ (quote_map_nonalnum _ Hn)) as [-> | ->].
Qed.

Lemma collapse_leading pre d rest :
  Forall (fun c => not_alnum c = true) pre -> not_alnum d = false ->
  re_sub nonalnum_re (py "_") (pre ++ d :: rest) =
  match pre with [] => [] | _ => [underscore] end ++
  d :: re_sub nonalnum_re (py "_") rest.
Proof.
  intros Hp Hd. destruct Hp as [|c pre Hc Hp]; simpl.
  - by rewrite re_sub_nonalnum_cons, Hd.
  - by rewrite re_sub_nonalnum_cons, Hc, drop_while_run, re_sub_nonalnum_cons, Hd.
Qed.

Lemma rstrip_keeps_head chars d s :
  d ∉ chars -> exists r, rstrip chars (d :: s) = d :: r.
Proof.
  intros Hd. unfold rstrip, lstrip. rewrite reverse_cons, drop_while_snoc.
  - rewrite reverse_snoc. by eexists.
  - by apply bool_decide_eq_false.
Qed.

Lemma strip_leading (pre : list N) d s :
  d <> underscore ->
  exists r, strip (py "_") (match pre with [] => [] | _ :: _ => [underscore] end ++ d :: s)
            = d :: r.
Proof.
  intros Hd. assert (d ∉ py "_") as Hin by (by rewrite in_underscore).
  assert (lstrip (py "_") (d :: s) = d :: s) as E.
  { unfold lstrip. simpl. by rewrite bool_decide_eq_false_2. }
  unfold strip. destruct pre as [|c pre].
  - simpl app. rewrite E. by apply rstrip_keeps_head.
  - assert (lstrip (py "_") ([underscore] ++ d :: s) = d :: s) as ->.
    { unfold lstrip in *. simpl. simpl in E. by rewrite E. }
    by apply rstrip_keeps_head.
Qed.

(** X6 (first character): the identifier opens with the first ASCII
    letter or digit of the title, in lowercase, and that behind katex_
    when it is a digit. *)
Theorem snakeify_leading name pre d rest :
  name = pre ++ d :: rest ->
  Forall (fun c => not_alnum c = true) pre -> not_alnum d = false ->
  exists r,
    snakeify name =
    (if is_ascii_digit d then py "katex_" else []) ++ ascii_lower d :: r.
Proof.
  intros -> Hp Hd.
  assert (exists r, normalized (pre ++ d :: rest) = ascii_lower d :: r) as [r Hr].
  { unfold normalized. rewrite re_sub_quote_eq, map_app. cbn [map].
    rewrite (alnum_not_quote _ Hd).
    rewrite (collapse_leading _ d _ (quote_map_nonalnum _ Hp) Hd).
    destruct (strip_leading
                (map (fun c => if is_quote_char c then space else c) pre) d
                (re_sub nonalnum_re (py "_")
                   (map (fun c => if is_quote_char c then space else c) rest))
                (alnum_not_underscore _ Hd)) as [r Hr].
    rewrite Hr. by eexists. }
  rewrite snakeify_normalized, Hr.
  destruct (alnum_lower_class _ Hd) as [-> _].
  exists r. by destruct (is_ascii_digit d).
Qed.

End SnakeifyShape.

(** ** Underscores in identifiers *)

Section Underscores.
Context `{Unicode}.

Lemma no_double_suffix a b :
  no_double_underscore (a ++ b) = true -> no_double_underscore b = true.
Proof.
  induction a as [|c a IH]; [done|]. cbn [app no_double_underscore].
  intros [_ Hr]%andb_true_iff. by apply IH.
Qed.

Lemma no_double_prefix a b :
  no_double_underscore (a ++ b) = true -> no_double_underscore a = true.
Proof.
  induction a as [|c a IH]; [done|]. cbn [app no_double_underscore].
  intros [Hc Hr]%andb_true_iff. rewrite (IH Hr), andb_true_r.
  destruct a as [|d a]; [done|exact Hc].
Qed.

Lemma no_double_app a b :
  no_double_underscore a = true -> no_double_underscore b = true ->
  last a <> Some underscore \/ head b <> Some underscore ->
  no_double_underscore (a ++ b) = true.
Proof.
  intros Ha Hb Hj. induction a as [|c a IH]; [done|].
  cbn [app no_double_underscore] in *.
  apply andb_true_iff in Ha as [Hc Ha]. apply andb_true_iff. split.
  - destruct a as [|d a]; [|exact Hc]. simpl.
    destruct b as [|d b]; [done|]. apply negb_true_iff, andb_false_iff.
    destruct Hj as [Hj|Hj].
    + left. apply bool_decide_eq_false. intros ->. by apply Hj.
    + right. apply bool_decide_eq_false. intros ->. by apply Hj.
  - apply IH; [done|]. destruct Hj as [Hj|Hj]; [left|by right].
    destruct a as [|d a]; [done|]. by rewrite last_cons_cons in Hj.
Qed.

Lemma no_double_lower s :
  no_double_underscore (map ascii_lower s) = no_double_underscore s.
Proof.
  induction s as [|c s IH]; [done|]. cbn [map no_double_underscore].
  rewrite IH. f_equal. destruct s as [|d s]; [done|]. cbn [map]. do 2 f_equal.
  - apply bool_decide_ext, ascii_lower_underscore.
  - apply bool_decide_ext, ascii_lower_underscore.
Qed.

Lemma last_map {A B} (f : A -> B) (l : list A) : last (map f l) = f <$> last l.
Proof. induction l as [|x [|y l] IH]; try done. Qed.

Lemma strip_infix chars s : exists k1 k2, s = k1 ++ strip chars s ++ k2.
Proof.
  unfold strip, rstrip.
  destruct (drop_while_suffix (fun c => bool_decide (c ∈ chars)) s) as [k1 E1].
  fold (lstrip chars s) in E1. set (x := lstrip chars s) in *.
  destruct (drop_while_suffix (fun c => bool_decide (c ∈ chars)) (reverse x)) as [k2 E2].
  fold (lstrip chars (reverse x)) in E2.
  apply (f_equal reverse) in E2. rewrite reverse_involutive, reverse_app in E2.
  exists k1, (reverse k2). by rewrite <- E2.
Qed.

Lemma strip_last chars s c : last (strip chars s) = Some c -> c ∉ chars.
Proof.
  unfold strip, rstrip. rewrite last_reverse. intros Hc%drop_while_head.
  by apply bool_decide_eq_false in Hc.
Qed.

(** After the second substitution no two underscores are adjacent. *)
Lemma collapse_no_double s :
  no_double_underscore (re_sub nonalnum_re (py "_") s) = true.
Proof.
  remember (length s) as n eqn:Hn. revert s Hn.
  induction n as [n IH] using lt_wf_ind. intros [|c s] Hn; [done|].
  rewrite re_sub_nonalnum_cons. destruct (not_alnum c) eqn:Hc.
  - destruct (drop_while_suffix not_alnum s) as [k Hk].
    assert (length (drop_while not_alnum s) < n) as Hlt.
    { apply (f_equal length) in Hk. rewrite length_app in Hk.
      subst n. simpl. lia. }
    cbn [no_double_underscore]. rewrite (IH _ Hlt _ eq_refl), andb_true_r.
    destruct (drop_while not_alnum s) as [|d r] eqn:Ed; [done|].
    assert (not_alnum d = false) as Hd
      by (apply (drop_while_head not_alnum s); by rewrite Ed).
    rewrite re_sub_nonalnum_cons, Hd.
    apply negb_true_iff, andb_false_iff. right.
    apply bool_decide_eq_false. by apply alnum_not_underscore.
  - cbn [no_double_underscore].
    rewrite (IH (length s)) by (simpl in Hn; lia || done).
    rewrite andb_true_r. destruct (re_sub _ _ s); [done|].
    apply negb_true_iff, andb_false_iff. left.
    apply bool_decide_eq_false. by apply alnum_not_underscore.
Qed.

Lemma normalized_tidy name :
  no_double_underscore (normalized name) = true /\
  head (normalized name) <> Some underscore /\
  last (normalized name) <> Some underscore.
Proof.
  unfold normalized.
  set (x := re_sub nonalnum_re (py "_") (re_sub quote_re (py " ") name)).
  split; [|split].
  - rewrite no_double_lower.
    destruct (strip_infix (py "_") x) as (k1 & k2 & E).
    pose proof (collapse_no_double (re_sub quote_re (py " ") name)) as Hx.
    fold x in Hx. rewrite E in Hx.
    by apply no_double_suffix, no_double_prefix in Hx.
  - destruct (strip (py "_") x) as [|c r] eqn:E; [done|]. simpl.
    intros [= Hc]. apply (proj1 (ascii_lower_underscore c)) in Hc.
    assert (c ∉ py "_") as Hn by (apply (strip_head _ x); by rewrite E).
    by apply Hn, in_underscore.
  - rewrite last_map. destruct (last (strip (py "_") x)) as [c|] eqn:E; [|done].
    simpl. intros [= Hc]. apply (proj1 (ascii_lower_underscore c)) in Hc.
    apply strip_last in E. by apply E, in_underscore.
Qed.

(** Steps 1-4 give an identifier without a double underscore and with no
    underscore at its end. *)
Lemma snakeify_tidy name :
  no_double_underscore (snakeify name) = true /\
  last (snakeify name) <> Some underscore.
Proof.
  rewrite snakeify_normalized.
  destruct (normalized_tidy name) as (Hd & Hh & Hl).
  destruct (normalized name) as [|c r] eqn:E; [done|].
  destruct (is_ascii_lower c); [done|]. split.
  - apply no_double_app; [done|done|by right].
  - by rewrite last_app_cons.
Qed.

Lemma forallb_Forall_true {A} (f : A -> bool) (l : list A) :
  forallb f l = true <-> Forall (fun x => f x = true) l.
Proof.
  induction l as [|x l IH]; simpl; [by split; [constructor|]|].
  rewrite andb_true_iff, Forall_cons. by rewrite IH.
Qed.

Lemma collapse_id s :
  Forall (fun c => ident_char c = true) s -> no_double_underscore s = true ->
  re_sub nonalnum_re (py "_") s = s.
Proof.
  induction 1 as [|c s Hc Hs IH]; [done|].
  cbn [no_double_underscore]. intros [Hj Hd]%andb_true_iff.
  rewrite re_sub_nonalnum_cons. destruct (decide (c = underscore)) as [->|Hne].
  - change (not_alnum underscore) with true. cbn iota. f_equal.
    destruct s as [|d s]; [done|].
    apply Forall_cons in Hs as [Hi _].
    assert (d <> underscore) as Hdu.
    { intros ->. by rewrite !bool_decide_eq_true_2 in Hj. }
    cbn [drop_while]. rewrite (ident_char_alnum _ Hi Hdu). by apply IH.
  - rewrite (ident_char_alnum _ Hc Hne). f_equal. by apply IH.
Qed.

Lemma strip_id s :
  head s <> Some underscore -> last s <> Some underscore ->
  strip (py "_") s = s.
Proof.
  intros Hh Hl. unfold strip.
  assert (forall l, head l <> Some underscore -> lstrip (py "_") l = l) as E.
  { intros [|c l] Hc; [done|]. unfold lstrip. cbn [drop_while].
    rewrite bool_decide_eq_false_2; [done|].
    rewrite in_underscore. intros ->. by apply Hc. }
  rewrite (E s Hh). unfold rstrip. rewrite E, reverse_involutive; [done|].
  by rewrite head_reverse.
Qed.

(** An identifier that is valid, has no double underscore and no
    underscore at its end is left as it is. *)
Lemma snakeify_fixed s :
  valid_identifier s = true -> no_double_underscore s = true ->
  last s <> Some underscore -> snakeify s = s.
Proof.
  intros Hv Hd Hl. destruct s as [|c r]; [done|].
  cbn [valid_identifier] in Hv. apply andb_true_iff in Hv as [Hc Hr].
  assert (Forall (fun x => ident_char x = true) (c :: r)) as Hall.
  { constructor; [|by apply forallb_Forall_true].
    unfold ident_char. by rewrite Hc. }
  assert (normalized (c :: r) = c :: r) as Hn.
  { unfold normalized. rewrite re_sub_quote_eq.
    assert (map (fun x => if is_quote_char x then space else x) (c :: r) = c :: r) as ->.
    { clear -Hall. induction Hall as [|x l Hx _ IH]; [done|].
      cbn [map]. by rewrite (ident_char_not_quote _ Hx), IH. }
    rewrite (collapse_id _ Hall Hd).
    rewrite strip_id; [|simpl; intros [= ->]; by apply (lower_not_underscore underscore)|done].
    clear -Hall. induction Hall as [|x l Hx _ IH]; [done|].
    cbn [map]. by rewrite (ident_char_lower _ Hx), IH. }
  by rewrite snakeify_normalized, Hn, Hc.
Qed.

(** X7 (idempotence): [snakeify] leaves its own results unchanged. *)
Theorem snakeify_idempotent name : snakeify (snakeify name) = snakeify name.
Proof.
  destruct (snakeify_tidy name) as [Hd Hl].
  apply snakeify_fixed; [apply snakeify_valid|done|done].
Qed.

End Underscores.

(** ** Numbering *)

Section Numbering.
Context `{Unicode}.
Variable ported : gset (list N).

Lemma uint_digits_digit d :
  Forall (fun c => is_ascii_digit c = true) (uint_digits d).
Proof. induction d; simpl; constructor; done. Qed.

Lemma uint_digits_inj d d' : uint_digits d = uint_digits d' -> d = d'.
Proof.
  revert d'. induction d; intros []; simpl; intros E; try done;
    injection E as E; f_equal; auto.
Qed.

Lemma str_of_int_injective n m : str_of_int n = str_of_int m -> n = m.
Proof.
  unfold str_of_int. intros E%uint_digits_inj.
  by apply DecimalNat.Unsigned.to_uint_inj.
Qed.

Lemma str_of_int_nonempty n : str_of_int n <> [].
Proof.
  unfold str_of_int. intros En.
  assert (Nat.to_uint n = Nil) as Hn by (by destruct (Nat.to_uint n)).
  pose proof (DecimalNat.Unsigned.of_to n) as Hof. rewrite Hn in Hof.
  simpl in Hof. subst n. done.
Qed.

(** X8 (decimal digits): [str] on a line number or a count gives a
    non-empty string of ASCII digits, and different numbers give
    different strings. *)
Theorem str_of_int_faithful n m :
  str_of_int n <> [] /\
  Forall (fun c => is_ascii_digit c = true) (str_of_int n) /\
  (str_of_int n = str_of_int m -> n = m).
Proof.
  split; [apply str_of_int_nonempty|]. split; [apply uint_digits_digit|].
  apply str_of_int_injective.
Qed.

Lemma numbered_inj base n m :
  1 <= n -> 1 <= m -> numbered base n = numbered base m -> n = m.
Proof.
  intros Hn Hm. unfold numbered.
  destruct (1 <? n) eqn:En, (1 <? m) eqn:Em.
  - intros E%app_inv_head. simpl in E. injection E as E.
    by apply str_of_int_injective in E.
  - intros E. rewrite <- (app_nil_r base) in E at 2. by apply app_inv_head in E.
  - intros E. rewrite <- (app_nil_r base) in E at 1. by apply app_inv_head in E.
  - apply Nat.ltb_ge in En, Em. lia.
Qed.

Lemma occurrences_take_le base (ds : list (list N * nat)) i j :
  i <= j -> occurrences base (take i ds) <= occurrences base (take j ds).
Proof.
  intros Hij. rewrite <- (take_drop i (take j ds)), occurrences_app.
  rewrite take_take, Nat.min_l by done. lia.
Qed.

Lemma occurrences_take_S base (ds : list (list N * nat)) i d :
  ds !! i = Some d -> snakeify d.1 = base ->
  occurrences base (take (S i) ds) = S (occurrences base (take i ds)).
Proof.
  intros Hi Hb. rewrite (take_S_r _ _ _ Hi), occurrences_app, occurrences_singleton.
  rewrite decide_True by done. lia.
Qed.

Lemma stubs_of_lookup text i s :
  stubs_of ported text !! i = Some s ->
  exists d, scan ported (splitlines text) !! i = Some d /\
    s = (d.1, d.2, numbered (snakeify d.1)
                     (occurrences (snakeify d.1)
                        (take (S i) (scan ported (splitlines text))))).
Proof.
  unfold stubs_of. intros Hs.
  destruct (scan ported (splitlines text) !! i) as [d|] eqn:E.
  - exists d. split; [done|]. rewrite (make_stubs_lookup _ _ _ E) in Hs. congruence.
  - apply lookup_ge_None in E. apply lookup_lt_Some in Hs.
    rewrite make_stubs_length in Hs. lia.
Qed.

(** X9 (same base): two stubs of a run whose titles have the same base
    identifier never get the same identifier. *)
Theorem same_base_distinct text i j si sj :
  stubs_of ported text !! i = Some si ->
  stubs_of ported text !! j = Some sj ->
  i <> j ->
  snakeify (stub_title si) = snakeify (stub_title sj) ->
  stub_ident si <> stub_ident sj.
Proof.
  assert (forall i j si sj,
            stubs_of ported text !! i = Some si ->
            stubs_of ported text !! j = Some sj ->
            i < j ->
            snakeify (stub_title si) = snakeify (stub_title sj) ->
            stub_ident si <> stub_ident sj) as Hlt.
  { clear. intros i j si sj (di & Hi & ->)%stubs_of_lookup
      (dj & Hj & ->)%stubs_of_lookup Hij Hb.
    unfold stub_title, stub_ident in *. cbn [fst snd] in *. rewrite <- Hb.
    set (ds := scan ported (splitlines text)) in *.
    pose proof (occurrences_take_S _ ds i di Hi eq_refl) as Ei.
    pose proof (occurrences_take_S _ ds j dj Hj (eq_sym Hb)) as Ej.
    pose proof (occurrences_take_le (snakeify di.1) ds (S i) j ltac:(lia)) as Hle.
    intros E%numbered_inj; lia. }
  intros Hi Hj Hne Hb. destruct (decide (i < j)).
  - by apply (Hlt i j).
  - intros E. apply (Hlt j i sj si); [done|done|lia|done|done].
Qed.

(** X10 (no collision): when the titles of a run have pairwise different
    base identifiers, nothing is numbered: each stub is named by its base,
    and the identifiers are pairwise different. *)
Theorem distinct_bases_unnumbered text :
  NoDup ((fun s => snakeify (stub_title s)) <$> stubs_of ported text) ->
  stub_ident <$> stubs_of ported text =
    (fun s => snakeify (stub_title s)) <$> stubs_of ported text /\
  NoDup (stub_ident <$> stubs_of ported text).
Proof.
  intros Hnd.
  assert (stub_ident <$> stubs_of ported text =
          (fun s => snakeify (stub_title s)) <$> stubs_of ported text) as E;
    [|by rewrite E].
  apply list_eq. intros i. rewrite !list_lookup_fmap.
  destruct (stubs_of ported text !! i) as [s|] eqn:Hs; [|done].
  simpl. f_equal.
  destruct (stubs_of_lookup _ _ _ Hs) as (d & Hd & ->).
  unfold stub_ident, stub_title. cbn [fst snd].
  set (ds := scan ported (splitlines text)) in *.
  assert (occurrences (snakeify d.1) ds = 1) as Hone.
  { unfold occurrences. rewrite (filter_fmap_length (fun d => snakeify d.1)).
    apply filter_eq_length.
    - replace ((fun d : list N * nat => snakeify d.1) <$> ds)
        with ((fun s => snakeify (stub_title s)) <$> stubs_of ported text); [done|].
      unfold stubs_of. fold ds. rewrite <- (make_stubs_entries ds) at 2.
      by rewrite <- list_fmap_compose.
    - apply list_elem_of_fmap. exists d. split; [done|].
      by eapply list_elem_of_lookup_2. }
  pose proof (occurrences_take_S _ ds i d Hd eq_refl) as Ei.
  pose proof (occurrences_take_le (snakeify d.1) ds (S i) (length ds)
                ltac:(apply lookup_lt_Some in Hd; lia)) as Hle.
  rewrite (take_ge ds (length ds)) in Hle by done.
  unfold numbered. by rewrite (proj2 (Nat.ltb_ge 1 _)) by lia.
Qed.

Lemma no_underscore_no_double s :
  Forall (fun c => c <> underscore) s -> no_double_underscore s = true.
Proof.
  induction 1 as [|c s Hc _ IH]; [done|]. cbn [no_double_underscore].
  rewrite IH, andb_true_r. destruct s; [done|].
  by rewrite (bool_decide_eq_false_2 (c = underscore)).
Qed.

Lemma numbered_tidy base n :
  no_double_underscore base = true -> last base <> Some underscore ->
  no_double_underscore (numbered base n) = true /\
  last (numbered base n) <> Some underscore.
Proof.
  intros Hd Hl. unfold numbered. destruct (1 <? n); [|done].
  assert (Forall (fun c => c <> underscore) (str_of_int n)) as Hdig.
  { eapply Forall_impl; [apply uint_digits_digit|]. apply digit_not_underscore. }
  destruct (str_of_int n) as [|c r] eqn:E; [by apply str_of_int_nonempty in E|].
  split.
  - apply no_double_app; [done| |by left].
    apply no_double_app; [done|by apply no_underscore_no_double|right].
    apply Forall_cons in Hdig as [Hc _]. simpl. by intros [= ->].
  - change (base ++ py "_" ++ c :: r) with (base ++ underscore :: c :: r).
    rewrite last_app_cons, last_cons_cons.
    destruct (last (c :: r)) as [x|] eqn:Ex; [|done].
    intros [= ->]. apply last_Some_elem_of in Ex.
    rewrite Forall_forall in Hdig. by apply (Hdig underscore).
Qed.

(** X11 (underscores): no identifier of a run holds two underscores in a
    row or ends with an underscore, numbered or not. *)
Theorem identifiers_tidy text stub :
  stub ∈ stubs_of ported text ->
  no_double_underscore (stub_ident stub) = true /\
  last (stub_ident stub) <> Some underscore.
Proof.
  intros [i Hi]%list_elem_of_lookup_1.
  destruct (stubs_of_lookup _ _ _ Hi) as (d & _ & ->).
  unfold stub_ident. cbn [snd].
  destruct (snakeify_tidy d.1) as [Hd Hl]. by apply numbered_tidy.
Qed.

End Numbering.

(** ** Lines *)

Section Lines.

Lemma splitlines_from_nobreak cur c s :
  is_linebreak c = false ->
  splitlines_from cur (c :: s) = splitlines_from (cur ++ [c]) s.
Proof. intros Hc. simpl. by rewrite Hc. Qed.

Lemma splitlines_from_break cur c s :
  is_linebreak c = true ->
  exists s', splitlines_from cur (c :: s) = cur :: splitlines_from [] s' /\
    (s' = s \/ s = newline :: s').
Proof.
  intros Hc. simpl. rewrite Hc.
  repeat case_match; subst; eauto.
Qed.

Lemma splitlines_from_break_free s cur :
  break_free cur -> Forall break_free (splitlines_from cur s).
Proof.
  revert cur. induction s as [|c s IH]; intros cur Hcur.
  - simpl. destruct cur; [constructor|]. constructor; [done|constructor].
  - destruct (is_linebreak c) eqn:Hc.
    + destruct (splitlines_from_break cur c s Hc) as (s' & -> & [->|Hs]).
      * constructor; [done|]. apply IH. constructor.
      * constructor; [done|]. subst s.
        specialize (IH [] ltac:(constructor)).
        change (splitlines_from [] (newline :: s'))
          with ([] :: splitlines_from [] s') in IH.
        by apply Forall_cons in IH as [_ ?].
    + rewrite splitlines_from_nobreak by done. apply IH.
      apply Forall_app. split; [done|]. constructor; [done|constructor].
Qed.

Lemma splitlines_from_line cur l rest :
  break_free l ->
  splitlines_from cur (l ++ newline :: rest) =
  (cur ++ l) :: splitlines_from [] rest.
Proof.
  intros Hl. revert cur. induction Hl as [|c l Hc _ IH]; intros cur.
  - by rewrite app_nil_r.
  - cbn [app]. rewrite splitlines_from_nobreak by done.
    rewrite IH. by rewrite <- app_assoc.
Qed.

Lemma splitlines_unlines_eq (ls : list (list N)) :
  Forall break_free ls -> splitlines (unlines ls) = ls.
Proof.
  unfold splitlines, unlines. induction 1 as [|l ls Hl _ IH]; [done|].
  cbn [flat_map]. rewrite <- app_assoc. cbn [app].
  by rewrite splitlines_from_line, IH.
Qed.

Lemma join_newline_unlines (ls : list (list N)) :
  ls <> [] -> join [newline] ls ++ [newline] = unlines ls.
Proof.
  destruct ls as [|l ls]; [done|]. intros _. revert l.
  induction ls as [|l' ls IH]; intros l.
  - simpl. by rewrite app_nil_r.
  - change (join [newline] (l :: l' :: ls))
      with (l ++ [newline] ++ join [newline] (l' :: ls)).
    change (unlines (l :: l' :: ls)) with ((l ++ [newline]) ++ unlines (l' :: ls)).
    rewrite <- IH. by rewrite <- !app_assoc.
Qed.

(** X13 (join and split): lines without line boundaries, joined by
    newlines and ended by one as [print] does, are split into just those
    lines again. *)
Theorem splitlines_join (ls : list (list N)) :
  ls <> [] -> Forall break_free ls ->
  splitlines (join [newline] ls ++ [newline]) = ls.
Proof.
  intros Hne Hls. rewrite join_newline_unlines by done.
  by apply splitlines_unlines_eq.
Qed.

End Lines.

(** ** The printed document *)

Section Document.
Context `{Unicode}.
Variable ported : gset (list N).

Lemma linebreak_cases c :
  is_linebreak c = true -> (c < 32 \/ c = 133 \/ c = 8232 \/ c = 8233)%N.
Proof.
  unfold is_linebreak. intros Hc%bool_decide_eq_true.
  repeat (apply elem_of_cons in Hc as [->|Hc]; [lia|]).
  by apply elem_of_nil in Hc.
Qed.

Lemma ident_char_no_break c : ident_char c = true -> is_linebreak c = false.
Proof.
  intros Hc. destruct (is_linebreak c) eqn:E; [|done].
  apply linebreak_cases in E. revert Hc. char_arith.
Qed.

Lemma break_free_forallb s :
  forallb (fun c => negb (is_linebreak c)) s = true -> break_free s.
Proof.
  intros Hs%forallb_Forall_true. eapply Forall_impl; [exact Hs|].
  simpl. intros c. destruct (is_linebreak c); simpl; intros; congruence.
Qed.

Lemma identifier_break_free s : valid_identifier s = true -> break_free s.
Proof.
  destruct s as [|c r]; [done|]. cbn [valid_identifier].
  intros [Hc Hr]%andb_true_iff. constructor.
  - apply ident_char_no_break. unfold ident_char. by rewrite Hc.
  - apply forallb_Forall_true in Hr. eapply Forall_impl; [exact Hr|].
    apply ident_char_no_break.
Qed.

Lemma str_of_int_break_free n : break_free (str_of_int n).
Proof.
  eapply Forall_impl; [apply uint_digits_digit|]. intros c Hc.
  apply ident_char_no_break. unfold ident_char. by rewrite Hc, orb_true_r.
Qed.

(** A title is a piece of its line. *)
Lemma title_of_infix line t :
  title_of line = Some t -> exists a b, line = a ++ t ++ b.
Proof.
  intros (s & -> & -> & _)%title_of_take_while.
  exists (py "describe(" ++ [dquote]), (drop_while not_quote s).
  by rewrite <- app_assoc, take_while_app.
Qed.

Lemma stub_title_break_free text s :
  s ∈ stubs_of ported text -> break_free (stub_title s).
Proof.
  intros Hs.
  assert ((stub_title s, stub_line s) ∈
          (fun s => (stub_title s, stub_line s)) <$> stubs_of ported text) as Hin
    by (apply list_elem_of_fmap; by exists s).
  rewrite stubs_of_entries in Hin. apply list_elem_of_filter in Hin as [_ Hin].
  apply raw_entries_elem in Hin as (line & _ & Hl & Ht).
  apply title_of_infix in Ht as (a & b & ->).
  pose proof (splitlines_from_break_free text [] ltac:(constructor)) as Hall.
  rewrite Forall_forall in Hall.
  specialize (Hall _ (list_elem_of_lookup_2 _ _ _ Hl)).
  apply Forall_app in Hall as [_ Hall]. by apply Forall_app in Hall as [? _].
Qed.

(** X12 (line boundaries): no line returned by [splitlines] holds a line
    boundary, and so neither does any title that the declaration pattern
    takes from such a line. *)
Theorem splitlines_break_free text :
  Forall break_free (splitlines text) /\
  forall line t,
    line ∈ splitlines text -> title_of line = Some t -> break_free t.
Proof.
  assert (Forall break_free (splitlines text)) as Hall
    by (apply splitlines_from_break_free; constructor).
  split; [exact Hall|]. intros line t Hin (a & b & ->)%title_of_infix.
  rewrite Forall_forall in Hall. specialize (Hall _ Hin).
  apply Forall_app in Hall as [_ Hall]. by apply Forall_app in Hall as [? _].
Qed.

Lemma stub_ident_valid text s :
  s ∈ stubs_of ported text -> valid_identifier (stub_ident s) = true.
Proof.
  intros [i Hi]%list_elem_of_lookup_1.
  destruct (stubs_of_lookup _ _ _ _ Hi) as (d & _ & ->).
  apply numbered_valid, snakeify_valid.
Qed.

Lemma break_free_app a b : break_free a -> break_free b -> break_free (a ++ b).
Proof. intros Ha Hb. apply Forall_app. by split. Qed.

Ltac break_free_lit := apply break_free_forallb; vm_compute; reflexivity.

Lemma block_break_free title lineno fn :
  break_free title -> valid_identifier fn = true ->
  Forall break_free (block (title, lineno, fn)).
Proof.
  intros Ht Hf. unfold block, emit_stub, todo_comment. rewrite app_nil_l.
  constructor; [break_free_lit|].
  constructor; [break_free_lit|].
  constructor.
  { apply break_free_app; [break_free_lit|].
    apply break_free_app; [by apply identifier_break_free|break_free_lit]. }
  constructor.
  { apply break_free_app; [break_free_lit|].
    apply break_free_app; [break_free_lit|].
    apply break_free_app; [done|].
    apply break_free_app; [break_free_lit|].
    apply break_free_app; [break_free_lit|apply str_of_int_break_free]. }
  constructor; [break_free_lit|].
  constructor; [break_free_lit|].
  constructor; [constructor|constructor].
Qed.

Lemma render_break_free text :
  Forall break_free (render (stubs_of ported text)).
Proof.
  rewrite render_blocks. apply Forall_app. split.
  - unfold header. repeat constructor; apply break_free_forallb; by vm_compute.
  - apply Forall_forall. intros l Hl%list_elem_of_In%in_flat_map.
    destruct Hl as ([[t n] fn] & Hs%list_elem_of_In & Hl%list_elem_of_In).
    assert (Forall break_free (block (t, n, fn))) as Hb.
    { apply block_break_free.
      - apply (stub_title_break_free text (t, n, fn) Hs).
      - apply (stub_ident_valid text (t, n, fn) Hs). }
    rewrite Forall_forall in Hb. by apply Hb.
Qed.

Lemma encode_line enc s :
  encode enc (s ++ [newline]) =
  (fun bytes => bytes ++ encode_ascii enc newline) <$> encode enc s.
Proof. rewrite encode_app, encode_newline. by destruct (encode enc s). Qed.

(** X14 (printed lines): the text a run hands to [print], with the newline
    that ends it, split into lines again, is the header followed by the
    seven lines of each stub: no title and no identifier can break a line
    of the document. When standard output can encode that text the run
    writes its bytes and returns; when it cannot, the run raises
    UnicodeEncodeError and writes nothing. *)
Theorem printed_lines w text :
  spec_file w = inr text ->
  let doc := document ported text ++ [newline] in
  splitlines doc = header ++ flat_map block (stubs_of ported text) /\
  length (splitlines doc) = 7 + 7 * length (stubs_of ported text) /\
  (forall bytes,
     encode (stdout_encoding w) doc = Some bytes ->
     main ported w =
     (inr tt, {| spec_file := spec_file w;
                 stdout_encoding := stdout_encoding w;
                 stdout := stdout w ++ bytes |})) /\
  (encode (stdout_encoding w) doc = None ->
   main ported w = (inl UnicodeEncodeError, w)).
Proof.
  intros Hf doc.
  assert (splitlines doc = header ++ flat_map block (stubs_of ported text)) as Hl.
  { unfold doc, document.
    assert (render (stubs_of ported text) <> []) as Hne
      by (by rewrite render_blocks).
    rewrite (join_newline_unlines _ Hne).
    by rewrite (splitlines_unlines_eq _ (render_break_free text)), render_blocks. }
  split; [exact Hl|]. split; [|split].
  - rewrite Hl, length_app. f_equal. clear Hl.
    induction (stubs_of ported text) as [|s l IH]; [done|].
    cbn [flat_map]. rewrite length_app, block_length, IH. simpl. lia.
  - intros bytes. unfold doc. rewrite encode_line, (main_prints ported w text Hf).
    destruct (encode (stdout_encoding w) (document ported text)) as [b|] eqn:E;
      [|done].
    intros [= <-]. by apply print_written.
  - unfold doc. rewrite encode_line, (main_prints ported w text Hf).
    destruct (encode (stdout_encoding w) (document ported text)) as [b|] eqn:E;
      [done|].
    intros _. by apply print_raises.
Qed.

(** X15 (nothing left): when every declaration of the input is already
    in the set, or there is none, the run prints the header alone and
    returns, whatever the encoding of standard output. *)
Theorem all_ported_header_only w text :
  spec_file w = inr text ->
  (forall e, e ∈ raw_entries (splitlines text) -> e.1 ∈ ported) ->
  main ported w =
  (inr tt, {| spec_file := spec_file w;
              stdout_encoding := stdout_encoding w;
              stdout := stdout w ++
                flat_map (encode_ascii (stdout_encoding w))
                  (join [newline] header ++ [newline]) |}).
Proof.
  intros Hf Hall. rewrite (main_prints ported w text Hf).
  assert (stubs_of ported text = []) as Hnil.
  { apply fmap_nil_inv with (f := fun s => (stub_title s, stub_line s)).
    rewrite stubs_of_entries. apply elem_of_nil_inv.
    intros e [Hn He]%list_elem_of_filter. by apply Hn, Hall. }
  unfold document. rewrite Hnil.
  rewrite (print_written _ w (flat_map (encode_ascii (stdout_encoding w))
                                (join [newline] header))).
  - rewrite flat_map_app.
    change (flat_map (encode_ascii (stdout_encoding w)) [newline])
      with (encode_ascii (stdout_encoding w) newline ++ []).
    by rewrite app_nil_r.
  - apply encode_ascii_text. by vm_compute.
Qed.

(** X16 (porting more): with more titles in the set, the stubs carry
    exactly the titles and line numbers of the former stubs whose title is
    not in the larger set, in the same order. *)
Theorem porting_more_removes_stubs (ported' : gset (list N)) text :
  ported ⊆ ported' ->
  (fun s => (stub_title s, stub_line s)) <$> stubs_of ported' text =
  filter (fun e : list N * nat => e.1 ∉ ported')
    ((fun s => (stub_title s, stub_line s)) <$> stubs_of ported text).
Proof.
  intros Hsub. rewrite !stubs_of_entries, list_filter_filter.
  apply list_filter_iff. intros e. split; [|by intros [? _]].
  intros Hn. split; [done|]. intros Hin. by apply Hn, Hsub.
Qed.

End Document.

(** ** The literal set *)

(** X17 (entries of the set): every entry of [PORTED] can be the title
    of a declaration line: none is empty and none holds a double quote, so
    that each entry can take effect in the first loop. *)
Theorem ported_entries_match t rest :
  t ∈ PORTED -> title_of (describe_line t rest) = Some t.
Proof.
  intros Ht.
  assert (t <> [] /\ Forall (fun c => not_quote c = true) t) as [Hne Hq].
  { unfold PORTED in Ht. apply elem_of_list_to_set in Ht. revert t Ht.
    apply Forall_forall.
    apply (Forall_impl (fun t => bool_decide (t <> []) && forallb not_quote t = true)).
    - apply forallb_Forall_true. vm_compute. reflexivity.
    - intros t [Hne Hq]%andb_true_iff. split.
      + by apply bool_decide_eq_true in Hne.
      + by apply forallb_Forall_true. }
  apply title_of_take_while. exists (t ++ dquote :: rest).
  split; [reflexivity|]. split; [|done].
  symmetry. apply take_while_spec. exists (dquote :: rest).
  split; [done|]. split; [done|]. right. exists dquote. split; [done|].
  by vm_compute.
Qed.

(** ** The further properties on the sample inputs *)

Lemma group1_span_inside_witness :
  re_match describe_re (describe_line weird_title fn_open) =
    Some {| m_end := 25; m_group1 := Some (10, 25) |} /\
  group1 (describe_line weird_title fn_open)
    {| m_end := 25; m_group1 := Some (10, 25) |} = weird_title.
Proof.
  assert (re_match describe_re (describe_line weird_title fn_open) =
          Some {| m_end := 25; m_group1 := Some (10, 25) |}) as Hm
    by (vm_compute; reflexivity).
  split; [exact Hm|].
  destruct (group1_span_inside _ _ Hm) as (_ & _ & Hg).
  rewrite Hg. vm_compute. reflexivity.
Defined.

Lemma sub_patterns_consume_witness :
  re_match quote_re [dquote] = Some {| m_end := 1; m_group1 := None |} /\
  1 <= 1.
Proof.
  assert (re_match quote_re [dquote] = Some {| m_end := 1; m_group1 := None |}) as Hm
    by (vm_compute; reflexivity).
  split; [exact Hm|].
  exact (sub_patterns_consume [dquote] {| m_end := 1; m_group1 := None |}
           (or_introl Hm)).
Defined.

Lemma snakeify_unknown_witness :
  Forall (fun c => not_alnum c = true) [33; 233; 63]%N /\
  @snakeify ascii_only [33; 233; 63]%N = py "unknown".
Proof.
  assert (Forall (fun c => not_alnum c = true) [33; 233; 63]%N) as Hn
    by (repeat constructor).
  split; [exact Hn|]. exact (@snakeify_unknown ascii_only _ Hn).
Defined.

Lemma snakeify_leading_witness :
  exists r, @snakeify ascii_only (py "(3D) Parser") = py "katex_" ++ 51%N :: r.
Proof.
  apply (@snakeify_leading ascii_only (py "(3D) Parser") (py "(") 51%N (py "D) Parser")).
  - reflexivity.
  - repeat constructor.
  - reflexivity.
Defined.

Lemma same_base_distinct_witness :
  @stubs_of ascii_only PORTED sample_text !! 1 = Some (py "foo", 4, py "foo") /\
  @stubs_of ascii_only PORTED sample_text !! 2 = Some (py "Foo!", 6, py "foo_2") /\
  py "foo" <> py "foo_2".
Proof.
  assert (@stubs_of ascii_only PORTED sample_text !! 1 = Some (py "foo", 4, py "foo")) as H1
    by (vm_compute; reflexivity).
  assert (@stubs_of ascii_only PORTED sample_text !! 2 = Some (py "Foo!", 6, py "foo_2")) as H2
    by (vm_compute; reflexivity).
  split; [exact H1|]. split; [exact H2|].
  apply (@same_base_distinct ascii_only PORTED sample_text 1 2 _ _ H1 H2).
  - lia.
  - vm_compute. reflexivity.
Defined.

Lemma distinct_bases_unnumbered_witness :
  stub_ident <$> @stubs_of ascii_only PORTED plain_text =
    [py "alpha_beta"; py "katex_3d_parser"] /\
  NoDup (stub_ident <$> @stubs_of ascii_only PORTED plain_text).
Proof.
  assert (NoDup ((fun s => @snakeify ascii_only (stub_title s)) <$>
                 @stubs_of ascii_only PORTED plain_text)) as Hnd.
  { assert ((fun s => @snakeify ascii_only (stub_title s)) <$>
            @stubs_of ascii_only PORTED plain_text =
            [py "alpha_beta"; py "katex_3d_parser"]) as -> by (vm_compute; reflexivity).
    apply NoDup_cons. split; [|apply NoDup_singleton].
    intros Hin%list_elem_of_singleton. discriminate Hin. }
  destruct (@distinct_bases_unnumbered ascii_only PORTED plain_text Hnd) as [E Hd].
  split; [|exact Hd]. rewrite E. vm_compute. reflexivity.
Defined.

Lemma identifiers_tidy_witness :
  (py "Foo!", 6, py "foo_2") ∈ @stubs_of ascii_only PORTED sample_text /\
  no_double_underscore (py "foo_2") = true /\
  last (py "foo_2") <> Some underscore.
Proof.
  assert ((py "Foo!", 6, py "foo_2") ∈ @stubs_of ascii_only PORTED sample_text) as Hin
    by (apply (list_elem_of_lookup_2 _ 2); vm_compute; reflexivity).
  split; [exact Hin|].
  exact (@identifiers_tidy ascii_only PORTED sample_text _ Hin).
Defined.

Lemma splitlines_join_witness :
  splitlines (join [newline] [py "fn a() {"; []; py "}"] ++ [newline]) =
    [py "fn a() {"; []; py "}"].
Proof.
  apply splitlines_join; [discriminate|].
  repeat constructor.
Defined.

Lemma printed_lines_witness :
  length (splitlines (@document ascii_only PORTED sample_text ++ [newline])) = 35 /\
  (@main ascii_only PORTED sample_world).1 = inr tt /\
  @main ascii_only PORTED ascii_world = (inl UnicodeEncodeError, ascii_world).
Proof.
  destruct (@printed_lines ascii_only PORTED sample_world sample_text eq_refl)
    as (_ & L & Hok & _).
  destruct (@printed_lines ascii_only PORTED ascii_world cafe_text eq_refl)
    as (_ & _ & _ & Hfail).
  split; [|split].
  - rewrite L. vm_compute. reflexivity.
  - destruct (encode (stdout_encoding sample_world)
                (@document ascii_only PORTED sample_text ++ [newline]))
      as [bytes|] eqn:E; [|vm_compute in E; discriminate E].
    by rewrite (Hok bytes eq_refl).
  - apply Hfail. vm_compute. reflexivity.
Defined.

Lemma all_ported_header_only_witness :
  @main ascii_only PORTED ported_world =
  (inr tt, {| spec_file := inr ported_text;
              stdout_encoding := ascii_encoding;
              stdout := join [newline] header ++ [newline] |}).
Proof.
  rewrite (@all_ported_header_only ascii_only PORTED ported_world ported_text eq_refl).
  - vm_compute. reflexivity.
  - assert (raw_entries (splitlines ported_text) = [(py "A parser", 2)]) as ->
      by (vm_compute; reflexivity).
    intros e ->%list_elem_of_singleton.
    apply (bool_decide_unpack _). vm_compute. exact I.
Defined.

Lemma porting_more_removes_stubs_witness :
  (fun s => (stub_title s, stub_line s)) <$> @stubs_of ascii_only PORTED ported_text =
  filter (fun e : list N * nat => e.1 ∉ PORTED)
    ((fun s => (stub_title s, stub_line s)) <$> @stubs_of ascii_only ∅ ported_text).
Proof.
  apply (@porting_more_removes_stubs ascii_only ∅ PORTED ported_text).
  apply empty_subseteq.
Defined.

Lemma ported_entries_match_witness :
  py "A \\KaTeX parser" ∈ PORTED /\
  title_of (describe_line (py "A \\KaTeX parser") fn_open) =
    Some (py "A \\KaTeX parser").
Proof.
  assert (py "A \\KaTeX parser" ∈ PORTED) as Hin
    by (apply (bool_decide_unpack _); vm_compute; exact I).
  split; [exact Hin|]. exact (ported_entries_match _ fn_open Hin).
Defined.


Lemma splitlines_break_free_witness :
  describe_line (py "foo") fn_open ∈ splitlines sample_text /\
  break_free (py "foo").
Proof.
  assert (describe_line (py "foo") fn_open ∈ splitlines sample_text) as Hin
    by (apply (list_elem_of_lookup_2 _ 3); vm_compute; reflexivity).
  split; [exact Hin|].
  destruct (splitlines_break_free sample_text) as [_ Ht].
  apply (Ht _ _ Hin). vm_compute. reflexivity.
Defined.
